(** * Advent of Code 2019, day 12 ([solve_12.py]): a shallow embedding

    The script simulates moons under an integer gravity rule.  Python
    objects are modelled the way the script uses them:

    - a [Vector3] is never mutated ([+=] and [-=] on a field rebind the
      field to the value of [__add__] / [__sub__]), so it is a plain record;
    - a [Moon] is a mutable object that is shared between the list [moons]
      and every [System] built from it, so Moons live in a store ([heap],
      a list indexed by location) and collections hold locations;
    - exceptions are a small error monad ([result]);
    - the [while True] loop of Part 2 takes fuel, [None] meaning that the
      fuel ran out before the loop left through [break]. *)

From Stdlib Require Import ZArith Lia Ascii.
From stdpp Require Import base option list gmap strings.

Local Open Scope Z_scope.

(** ** Exceptions *)

Inductive exn : Set :=
  | ValueError | IndexError | KeyError | TypeError
  | ZeroDivisionError | OverflowError.

Inductive result (A : Type) : Type :=
  | Ok (a : A)
  | Raise (e : exn).
Arguments Ok {A} a.
Arguments Raise {A} e.

#[global] Instance result_ret : MRet result := fun _ a => Ok a.
#[global] Instance result_bind : MBind result := fun _ _ f c =>
  match c with Ok a => f a | Raise e => Raise e end.

Definition is_ok {A} (r : result A) : bool :=
  match r with Ok _ => true | Raise _ => false end.

(** ** Text and ints *)

(** The text the script handles is ASCII: the input format and everything
    [__str__] writes.  On a string with a character outside ASCII, [int]
    consults the Unicode database (decimal digits and white space of other
    scripts), which is no part of this development; the statements about
    [int] and [parse_vec] below are about ASCII lines ([is_ascii]). *)
Definition is_ascii_char (c : ascii) : bool := (nat_of_ascii c <? 128)%nat.

(** CPython's limit on the number of decimal digits of an int that is
    converted from or to text, [sys.int_max_str_digits], at its default
    (CPython 3.11 and later, and the security releases of 3.7 to 3.10). *)
Definition int_max_str_digits : nat := 4300.

(** ** [str(n)] for an int *)

(** The character of the decimal digit [d]. *)
Definition digit_char (d : Z) : ascii := ascii_of_nat (48 + Z.to_nat d).

(** The decimal digits of [n >= 0] in front of [acc], last digit first;
    [fuel] bounds the number of digits. *)
Fixpoint str_digits (fuel : nat) (n : Z) (acc : string) : string :=
  match fuel with
  | O => acc
  | S fuel' =>
      let acc' := String (digit_char (n mod 10)) acc in
      if n <? 10 then acc' else str_digits fuel' (n / 10) acc'
  end.

(** The decimal digits of [n >= 0], without leading zeros.  A number has
    at most one more decimal digit than its binary logarithm. *)
Definition decimal (n : Z) : string :=
  str_digits (S (Z.to_nat (Z.log2 n))) n EmptyString.

(** [str(n)], also what an f-string writes for [{n}]: a minus sign for a
    negative number, then the decimal digits.  More digits than the limit
    raise ValueError. *)
Definition py_str_int (n : Z) : result string :=
  let digits := decimal (Z.abs n) in
  if (int_max_str_digits <? String.length digits)%nat then Raise ValueError
  else Ok (if n <? 0 then String "-" digits else digits).

(** ** class Vector3 *)

Module Vector3.
Record t : Set := mk { x : Z; y : Z; z : Z }.

(** [__add__] *)
Definition add (a b : t) : t := mk (x a + x b) (y a + y b) (z a + z b).

(** [__sub__] *)
Definition sub (a b : t) : t := mk (x a - x b) (y a - y b) (z a - z b).

(** [__iter__]: yields x, y, z. *)
Definition iter (a : t) : list Z := [x a; y a; z a].

(** The lambda of [sign]: [-1 if t < 0 else 0 if t == 0 else 1]. *)
Definition sign1 (c : Z) : Z :=
  if c <? 0 then -1 else if c =? 0 then 0 else 1.

(** [sign]: a new Vector3 from the lambda mapped over [self]. *)
Definition sign (a : t) : t :=
  match map sign1 (iter a) with
  | [a0; a1; a2] => mk a0 a1 a2
  | _ => a
  end.

Definition zero : t := mk 0 0 0.

(** [__eq__] *)
Definition eqb (a b : t) : bool :=
  (x a =? x b) && (y a =? y b) && (z a =? z b).

(** [__str__]: the three components are formatted from left to right. *)
Definition str (a : t) : result string :=
  sx ← py_str_int (x a);
  sy ← py_str_int (y a);
  sz ← py_str_int (z a);
  Ok ("<x=" +:+ sx +:+ ", y=" +:+ sy +:+ ", z=" +:+ sz +:+ ">").
End Vector3.

(** ** class Moon *)

Module Moon.
Record t : Set := mk { position : Vector3.t; velocity : Vector3.t }.

(** [__init__] with the default [velocity=Vector3(0, 0, 0)].  The default
    object is shared by all Moons, which is harmless: no method mutates a
    Vector3. *)
Definition new (p : Vector3.t) : t := mk p Vector3.zero.

(** [move]: the value of the object after [self.position += self.velocity]. *)
Definition move (m : t) : t :=
  mk (Vector3.add (position m) (velocity m)) (velocity m).

(** [sum(map(abs, v))]: [sum] starts from 0 and adds from the left. *)
Definition sum_abs (v : Vector3.t) : Z :=
  foldl Z.add 0 (map Z.abs (Vector3.iter v)).

Definition potential_energy (m : t) : Z := sum_abs (position m).
Definition kinetic_energy (m : t) : Z := sum_abs (velocity m).
Definition total_energy (m : t) : Z := potential_energy m * kinetic_energy m.

(** [__eq__] *)
Definition eqb (m n : t) : bool :=
  Vector3.eqb (position m) (position n)
  && Vector3.eqb (velocity m) (velocity n).
End Moon.

#[global] Instance moon_inhabited : Inhabited Moon.t :=
  populate (Moon.new Vector3.zero).

(** ** The store of Moon objects *)

(** A location is the index of a Moon object in the store.  A Python
    reference always points at a live object; [h !!! a] at a location that
    was never allocated is outside the model ([valid] below rules it out). *)
Definition loc : Set := nat.
Abbreviation heap := (list Moon.t).

(** [Moon(p)]: allocate a new object, return its location. *)
Definition alloc (h : heap) (m : Moon.t) : heap * loc := (h ++ [m], length h).

(** [m.velocity = v] and [m.position = p] on the object at [a]. *)
Definition set_velocity (v : Vector3.t) (m : Moon.t) : Moon.t :=
  Moon.mk (Moon.position m) v.

(** [itertools.combinations(l, r)]: the [r]-element subsequences of [l], in
    lexicographic order of their indices. *)
Fixpoint combinations {A} (l : list A) (r : nat) : list (list A) :=
  match r, l with
  | O, _ => [[]]
  | S _, [] => []
  | S r', a :: l' => map (cons a) (combinations l' r') ++ combinations l' r
  end.

(** ** class System *)

Module System.
Record t : Set := mk { moons : list loc; step : Z; debug : bool }.

(** [__init__]: keeps the caller's list of Moon objects, no copy. *)
Definition new (ms : list loc) : t := mk ms 0 false.

(** The body of the loop of [apply_gravity] for one tuple [(m1, m2)]:
    [diff] is computed once, [m1.velocity] is rebound first and
    [m2.velocity] is read after that. *)
Definition gravity_pair (h : heap) (c : list loc) : heap :=
  match c with
  | [m1; m2] =>
      let diff :=
        Vector3.sub (Moon.position (h !!! m1)) (Moon.position (h !!! m2)) in
      let h1 :=
        alter (fun m => set_velocity
                 (Vector3.sub (Moon.velocity m) (Vector3.sign diff)) m) m1 h in
      alter (fun m => set_velocity
               (Vector3.add (Moon.velocity m) (Vector3.sign diff)) m) m2 h1
  | _ => h
  end.

(** [apply_gravity] (the [debug] printing has no effect on the state). *)
Definition apply_gravity (s : t) (h : heap) : heap :=
  foldl gravity_pair h (combinations (moons s) 2).

(** [tick]: the counter goes up, then every Moon of the list moves. *)
Definition tick (s : t) (h : heap) : t * heap :=
  (mk (moons s) (step s + 1) (debug s),
   foldl (fun h' a => alter Moon.move a h') h (moons s)).

(** [energy]: [sum([m.total_energy() for m in self.moons])]. *)
Definition energy (s : t) (h : heap) : Z :=
  foldl Z.add 0 (map (fun a => Moon.total_energy (h !!! a)) (moons s)).

(** One of the three tuples of [state], for the component [ax]. *)
Definition axis_state (ax : Vector3.t -> Z) (s : t) (h : heap)
  : list (Z * Z) :=
  map (fun a => (ax (Moon.position (h !!! a)), ax (Moon.velocity (h !!! a))))
      (moons s).

(** [state]: the tuple of the three per-axis tuples. *)
Definition state (s : t) (h : heap) : list (list (Z * Z)) :=
  [axis_state Vector3.x s h; axis_state Vector3.y s h;
   axis_state Vector3.z s h].

(** The two statements the drivers always run together. *)
Definition advance (sh : t * heap) : t * heap :=
  let '(s, h) := sh in tick s (apply_gravity s h).

(** [__eq__]: [all(a == b for a, b in zip(self.moons, other.moons))]. *)
Definition eqb (s1 s2 : t) (h : heap) : bool :=
  forallb (fun ab => Moon.eqb (h !!! ab.1) (h !!! ab.2))
          (zip (moons s1) (moons s2)).
End System.

(** ** Strings: the [str] methods used by [parse_vec] *)

(** [s.replace(old, new)] for a non-empty [old]: occurrences are found from
    the left and do not overlap; [skip] counts the characters of a matched
    occurrence that are still to be dropped. *)
Fixpoint replace_from (old new : string) (skip : nat) (s : string) : string :=
  match s with
  | EmptyString => EmptyString
  | String c s' =>
      match skip with
      | S k => replace_from old new k s'
      | O =>
          if String.prefix old s
          then new +:+ replace_from old new (String.length old - 1)%nat s'
          else String c (replace_from old new O s')
      end
  end.

(** With an empty [old], Python puts [new] before every character and at
    the end. *)
Fixpoint intersperse_all (new s : string) : string :=
  match s with
  | EmptyString => new
  | String c s' => new +:+ String c (intersperse_all new s')
  end.

Definition replace (old new s : string) : string :=
  match old with
  | EmptyString => intersperse_all new s
  | _ => replace_from old new O s
  end.

(** [s.split(sep)] for a non-empty [sep]: the pieces between the
    occurrences of [sep], always at least one piece. *)
Fixpoint split_from (sep : string) (skip : nat) (s : string) : list string :=
  match s with
  | EmptyString => [EmptyString]
  | String c s' =>
      match skip with
      | S k => split_from sep k s'
      | O =>
          if String.prefix sep s
          then EmptyString :: split_from sep (String.length sep - 1)%nat s'
          else match split_from sep O s' with
               | piece :: pieces => String c piece :: pieces
               | [] => [String c EmptyString]
               end
      end
  end.

Definition split (sep s : string) : result (list string) :=
  match sep with
  | EmptyString => Raise ValueError
  | _ => Ok (split_from sep O s)
  end.

(** [l[i]] *)
Definition index {A} (l : list A) (i : nat) : result A :=
  match l !! i with
  | Some a => Ok a
  | None => Raise IndexError
  end.

(** ** [int(s)] on ASCII text *)

(** The characters C's [isspace] accepts: space, and tab to carriage
    return. *)
Definition is_space (c : ascii) : bool :=
  let n := nat_of_ascii c in
  (n =? 32)%nat || ((9 <=? n)%nat && (n <=? 13)%nat).

Definition is_digit (c : ascii) : bool :=
  let n := nat_of_ascii c in (48 <=? n)%nat && (n <=? 57)%nat.

Definition digit_value (c : ascii) : Z := Z.of_nat (nat_of_ascii c) - 48.

(** Every character of [s] satisfies [p]. *)
Fixpoint all_chars (p : ascii -> bool) (s : string) : bool :=
  match s with
  | EmptyString => true
  | String c s' => p c && all_chars p s'
  end.

Definition all_space (s : string) : bool := all_chars is_space s.

Fixpoint skip_space (s : string) : string :=
  match s with
  | String c s' => if is_space c then skip_space s' else s
  | EmptyString => EmptyString
  end.

(** The digits of a literal: single underscores are allowed between two
    digits, white space may follow the last digit, nothing else may.
    [after_digit] tells whether the previous character was a digit. *)
Fixpoint int_digits (acc : Z) (after_digit : bool) (s : string) : option Z :=
  match s with
  | EmptyString => if after_digit then Some acc else None
  | String c s' =>
      if is_digit c then int_digits (10 * acc + digit_value c) true s'
      else if Ascii.eqb c "_" && after_digit then int_digits acc false s'
      else if after_digit && all_space s then Some acc
      else None
  end.

(** The number of decimal digits in [s]. *)
Fixpoint count_digits (s : string) : nat :=
  match s with
  | EmptyString => O
  | String c s' => if is_digit c then S (count_digits s') else count_digits s'
  end.

(** [int(s)] on ASCII text: white space around the literal is ignored,
    then an optional sign, then the digits.  A string that is not a
    literal raises ValueError, and so does a literal with more digits than
    the limit (underscores and the sign are not counted). *)
Definition py_int (s : string) : result Z :=
  let '(sgn, body) :=
    match skip_space s with
    | String c r =>
        if Ascii.eqb c "+" then (1, r)
        else if Ascii.eqb c "-" then (-1, r)
        else (1, String c r)
    | EmptyString => (1, EmptyString)
    end in
  match int_digits 0 false body with
  | Some n =>
      if (int_max_str_digits <? count_digits body)%nat then Raise ValueError
      else Ok (sgn * n)
  | None => Raise ValueError
  end.

(** ** [parse_vec] *)

Definition parse_vec (vecstr : string) : result Vector3.t :=
  let vecstr := replace " " "" (replace ">" "" (replace "<" "" vecstr)) in
  vec ← split "," vecstr;
  v0 ← index vec 0; x ← py_int (replace "x=" "" v0);
  v1 ← index vec 1; y ← py_int (replace "y=" "" v1);
  v2 ← index vec 2; z ← py_int (replace "z=" "" v2);
  Ok (Vector3.mk x y z).

(** ** True division and [int] of a float *)

(** A finite binary64 value, [mant * 2 ^ expo]. *)
Record float : Set := mkfloat { mant : Z; expo : Z }.

(** The quotient [num / den] rounded to the nearest integer, ties to the
    even one. *)
Definition round_half_even (num den : Z) : Z :=
  let q := num / den in
  let r := num mod den in
  if (den <? 2 * r) || ((den =? 2 * r) && Z.odd q) then q + 1 else q.

Definition scaled_num (n e : Z) : Z := if 0 <=? e then n else n * 2 ^ (- e).
Definition scaled_den (d e : Z) : Z := if 0 <=? e then d * 2 ^ e else d.

(** [n / d] on two ints.  CPython rounds the exact quotient correctly to a
    binary64 (nearest, ties to even): the exponent [e] is chosen so that the
    quotient scaled by [2 ^ (- e)] has 53 bits, never below the exponent of
    the subnormals, and the scaled quotient is rounded to an integer.  A
    zero divisor raises ZeroDivisionError, a result of 2^1024 or more raises
    OverflowError. *)
Definition py_truediv (n d : Z) : result float :=
  if d =? 0 then Raise ZeroDivisionError
  else if n =? 0 then Ok (mkfloat 0 0)
  else
    let N := Z.abs n in
    let D := Z.abs d in
    let e0 := Z.log2 N - Z.log2 D - 53 in
    let e1 :=
      if 2 ^ 53 <=? scaled_num N e0 / scaled_den D e0 then e0 + 1 else e0 in
    let e := Z.max e1 (-1074) in
    let m := round_half_even (scaled_num N e) (scaled_den D e) in
    if (0 <=? e) && (2 ^ 1024 <=? m * 2 ^ e) then Raise OverflowError
    else Ok (mkfloat (Z.sgn n * Z.sgn d * m) e).

(** [int(f)]: truncation towards zero. *)
Definition py_int_of_float (f : float) : Z :=
  if 0 <=? expo f then mant f * 2 ^ expo f
  else Z.quot (mant f) (2 ^ (- expo f)).

(** ** [lcm] and [lcms] *)

(** [int(a * b / gcd(a, b))]; [math.gcd] is never negative. *)
Definition lcm (a b : Z) : result Z :=
  f ← py_truediv (a * b) (Z.gcd a b);
  Ok (py_int_of_float f).

(** [functools.reduce(f, numbers)] without an initial value. *)
Definition reduce {A} (f : A -> A -> result A) (numbers : list A) : result A :=
  match numbers with
  | [] => Raise TypeError
  | n :: ns => foldl (fun acc b => a ← acc; f a b) (Ok n) ns
  end.

Definition lcms (numbers : list Z) : result Z := reduce lcm numbers.

(** ** The script *)

(** [list(map(Moon, moons))]: one new Moon object per parsed vector. *)
Definition build (vecs : list Vector3.t) : heap * list loc :=
  foldl (fun '(h, ms) v => let '(h', a) := alloc h (Moon.new v) in
                           (h', ms ++ [a]))
        ([], []) vecs.

(** Part 1: [jupiter = System(moons)] and the loop over [range(1000)]. *)
Definition part1_run (ms : list loc) (h : heap) : System.t * heap :=
  Nat.iter 1000 System.advance (System.new ms, h).

(** The variables of Part 2. [period] holds [None] (Python's None) or an
    int. *)
Record Part2 : Type := mkPart2 {
  jupiter : System.t;
  store : heap;
  history : gmap string (gset (list (Z * Z)));
  period : list (option Z)
}.

(** Lines 131 to 133: the System is built from the same list [moons], so it
    refers to the Moon objects Part 1 has advanced. *)
Definition part2_init (ms : list loc) (h : heap) : Part2 :=
  mkPart2 (System.new ms) h
          (<["x" := ∅]> (<["y" := ∅]> (<["z" := ∅]> ∅)))
          [None; None; None].

(** [enumerate(s)] over the characters of a string. *)
Definition enumerate (s : string) : list (nat * string) :=
  imap (fun i c => (i, String c EmptyString)) (String.list_ascii_of_string s).

(** The body of the [for] loop of Part 2, for one [(i, axis)]. *)
Definition check_axis (state : list (list (Z * Z))) (st : Part2)
    (ia : nat * string) : result Part2 :=
  let '(i, axis) := ia in
  p ← index (period st) i;
  match p with
  | None =>
      si ← index state i;
      match history st !! axis with
      | None => Raise KeyError
      | Some seen =>
          if bool_decide (si ∈ seen)
          then Ok (mkPart2 (jupiter st) (store st)
                     (delete axis (history st))
                     (<[i := Some (System.step (jupiter st))]> (period st)))
          else Ok (mkPart2 (jupiter st) (store st)
                     (<[axis := {[si]} ∪ seen]> (history st))
                     (period st))
      end
  | Some _ => Ok st
  end.

(** Lines 135 to 142. *)
Definition check (st : Part2) : result Part2 :=
  let state := System.state (jupiter st) (store st) in
  foldl (fun acc ia => st' ← acc; check_axis state st' ia)
        (Ok st) (enumerate "xyz").

(** Truth value of an entry of [period]: None and 0 are false. *)
Definition truthy (p : option Z) : bool :=
  match p with
  | None => false
  | Some n => negb (n =? 0)
  end.

(** [all(period)] *)
Definition all (period : list (option Z)) : bool := forallb truthy period.

(** The [while True] loop; [None] when the fuel is used up. *)
Fixpoint part2_loop (fuel : nat) (st : Part2)
    : option (result (list (option Z))) :=
  match fuel with
  | O => None
  | S fuel' =>
      match check st with
      | Raise e => Some (Raise e)
      | Ok st' =>
          if all (period st') then Some (Ok (period st'))
          else
            let '(s, h) := System.advance (jupiter st', store st') in
            part2_loop fuel' (mkPart2 s h (history st') (period st'))
      end
  end.

(** [lcms( *period)]: the entries are ints when the loop is left. *)
Definition part2_answer (period : list (option Z)) : result Z :=
  match mapM (fun p => p) period with
  | Some numbers => lcms numbers
  | None => Raise TypeError
  end.

(** Lines 122 to 128 after parsing: the list [moons], the store and the
    value of [part1] when Part 1 is over. *)
Definition after_part1 (vecs : list Vector3.t) : list loc * heap * Z :=
  let '(h0, ms) := build vecs in
  let '(s1, h1) := part1_run ms h0 in
  (ms, h1, System.energy s1 h1).

(** The state in which the loop of Part 2 is entered. *)
Definition part2_start (vecs : list Vector3.t) : Part2 :=
  let '(ms, h1, _) := after_part1 vecs in part2_init ms h1.

(** The script from the parsed vectors on: [(part1, part2)]. *)
Definition script (vecs : list Vector3.t) (fuel : nat)
    : option (result (Z * Z)) :=
  let '(_, _, part1) := after_part1 vecs in
  match part2_loop fuel (part2_start vecs) with
  | None => None
  | Some (Raise e) => Some (Raise e)
  | Some (Ok period) => Some (part2 ← part2_answer period; Ok (part1, part2))
  end.

(** The whole script, from the stripped lines of the input file:
    [list(map(parse_vec, moons))] stops at the first line that raises. *)
Definition main (lines : list string) (fuel : nat)
    : option (result (Z * Z)) :=
  match mapM parse_vec lines with
  | Raise e => Some (Raise e)
  | Ok vecs => script vecs fuel
  end.

Definition example_lines : list string :=
  ["<x=-1, y=0, z=2>"; "<x=2, y=-10, z=-7>"; "<x=4, y=-8, z=8>";
   "<x=3, y=5, z=-1>"].


(** ** Vocabulary of the statements *)

(** The Moons of a System are distinct objects of the store. *)
Definition valid (s : System.t) (h : heap) : Prop :=
  NoDup (System.moons s) ∧
  Forall (fun a => (a < length h)%nat) (System.moons s).

#[global] Instance valid_dec s h : Decision (valid s h).
Proof. unfold valid. apply _. Defined.

(** Position and velocity of the object at [a]. *)
Definition pos (h : heap) (a : loc) : Vector3.t := Moon.position (h !!! a).
Definition vel (h : heap) (a : loc) : Vector3.t := Moon.velocity (h !!! a).

(** The sign of the difference of two positions. *)
Definition pull (h : heap) (a b : loc) : Vector3.t :=
  Vector3.sign (Vector3.sub (pos h a) (pos h b)).

(** Sum of a list of vectors. *)
Definition vsum (vs : list Vector3.t) : Vector3.t :=
  foldr Vector3.add Vector3.zero vs.

(** The energy of a list of Moons, written out: for each Moon the sum of
    the absolute values of its position times that of its velocity. *)
Definition energy_formula (ms : list Moon.t) : Z :=
  foldr (fun m acc =>
           let p := Moon.position m in
           let v := Moon.velocity m in
           (Z.abs (Vector3.x p) + Z.abs (Vector3.y p) + Z.abs (Vector3.z p))
           * (Z.abs (Vector3.x v) + Z.abs (Vector3.y v) + Z.abs (Vector3.z v))
           + acc)
        0 ms.

(** *** The loop of Part 2, axis by axis *)

(** What the loop knows about one axis: it is still searching, with the
    set of the axis states seen so far, or it has found the period. *)
Inductive axis_search : Type :=
  | Searching (seen : gset (list (Z * Z)))
  | Found (p : Z).

Definition ax_period (a : axis_search) : option Z :=
  match a with Searching _ => None | Found p => Some p end.

Definition ax_history (a : axis_search) : option (gset (list (Z * Z))) :=
  match a with Searching seen => Some seen | Found _ => None end.

(** One pass of the [for] loop seen from one axis, at step [step] and
    with [si] the current state of the axis. *)
Definition ax_next (step : Z) (si : list (Z * Z)) (a : axis_search)
    : axis_search :=
  match a with
  | Searching seen =>
      if bool_decide (si ∈ seen) then Found step
      else Searching ({[si]} ∪ seen)
  | Found p => Found p
  end.

(** The variables [period] and [history] hold the three searches. *)
Definition represents (st : Part2) (a0 a1 a2 : axis_search) : Prop :=
  period st = [ax_period a0; ax_period a1; ax_period a2]
  ∧ history st !! "x" = ax_history a0
  ∧ history st !! "y" = ax_history a1
  ∧ history st !! "z" = ax_history a2.

(** The System and the store after [n] advances from a System over [ms]. *)
Definition traj (ms : list loc) (h : heap) (n : nat) : System.t * heap :=
  Nat.iter n System.advance (System.new ms, h).

(** The state of axis [i] after [n] advances. *)
Definition axis_at (ms : list loc) (h : heap) (i n : nat) : list (Z * Z) :=
  System.state (traj ms h n).1 (traj ms h n).2 !!! i.

(** The search on axis [i] when [n] passes of the loop are done. *)
Fixpoint ax_run (ms : list loc) (h : heap) (i n : nat) : axis_search :=
  match n with
  | O => Searching ∅
  | S n' => ax_next (Z.of_nat n') (axis_at ms h i n') (ax_run ms h i n')
  end.

(** Axis [i] shows at step [b] a state it has shown before. *)
Definition repeat_at (ms : list loc) (h : heap) (i b : nat) : Prop :=
  ∃ a, (a < b)%nat ∧ axis_at ms h i a = axis_at ms h i b.

(** [p] is the first step at which axis [i] repeats. *)
Definition first_repeat (ms : list loc) (h : heap) (i p : nat) : Prop :=
  repeat_at ms h i p ∧ ∀ b, (b < p)%nat → ¬ repeat_at ms h i b.

(** The states in which the loop of Part 2 starts an iteration. *)
Inductive loop_reaches (st0 : Part2) : Part2 → Prop :=
  | reaches_start : loop_reaches st0 st0
  | reaches_next st st' :
      loop_reaches st0 st →
      check st = Ok st' →
      all (period st') = false →
      loop_reaches st0
        (mkPart2 (System.advance (jupiter st', store st')).1
                 (System.advance (jupiter st', store st')).2
                 (history st') (period st')).

(** A single Moon that starts at the origin with velocity (1, 0, 0). *)
Definition drifting : heap := [Moon.mk Vector3.zero (Vector3.mk 1 0 0)].

(** *** Well-formed input lines *)

(** A line of ASCII text. *)
Definition is_ascii (s : string) : bool := all_chars is_ascii_char s.

(** A non-empty string of decimal digits. *)
Definition is_digits (s : string) : bool :=
  match s with
  | EmptyString => false
  | _ => all_chars is_digit s
  end.

(** An optionally signed decimal integer. *)
Definition is_literal (s : string) : bool :=
  match s with
  | String c r =>
      if Ascii.eqb c "+" || Ascii.eqb c "-" then is_digits r else is_digits s
  | EmptyString => false
  end.

(** The number a string of digits denotes, after the digits [acc]. *)
Fixpoint digits_value (acc : Z) (s : string) : Z :=
  match s with
  | EmptyString => acc
  | String c s' => digits_value (10 * acc + digit_value c) s'
  end.

Definition literal_value (s : string) : Z :=
  match s with
  | String c r =>
      if Ascii.eqb c "-" then - digits_value 0 r
      else if Ascii.eqb c "+" then digits_value 0 r
      else digits_value 0 s
  | EmptyString => 0
  end.

(** The line [<x=i1, y=i2, z=i3>]. *)
Definition line_of (i1 i2 i3 : string) : string :=
  "<x=" +:+ i1 +:+ ", y=" +:+ i2 +:+ ", z=" +:+ i3 +:+ ">".

(** A line of the shape [<x=I, y=I, z=I>], each [I] an optionally signed
    decimal integer. *)
Definition well_shaped (line : string) : Prop :=
  ∃ i1 i2 i3, is_literal i1 = true ∧ is_literal i2 = true
              ∧ is_literal i3 = true ∧ line = line_of i1 i2 i3.

(** The fields [parse_vec] splits a line into. *)
Definition fields (line : string) : list string :=
  split_from "," O
    (replace " " "" (replace ">" "" (replace "<" "" line))).

(** The characters of a literal: digits and the two signs. *)
Definition lit_char (c : ascii) : bool :=
  is_digit c || Ascii.eqb c "+" || Ascii.eqb c "-".

(** [c] is not the character [d]. *)
Definition not_char (d c : ascii) : bool := negb (Ascii.eqb c d).

(** *** One axis at a time *)

(** The three components of a vector, in the order of [state]. *)
Definition axes : list (Vector3.t -> Z) := [Vector3.x; Vector3.y; Vector3.z].

(** The pull, along one axis, on a Moon at [p] from Moons at [qs]. *)
Definition axis_force (p : Z) (qs : list Z) : Z :=
  foldr (fun q acc => Vector3.sign1 (q - p) + acc) 0 qs.

(** An advance seen on one axis: every (position, velocity) pair gets the
    pull of all the positions, then moves by its new velocity. *)
Definition axis_step (l : list (Z * Z)) : list (Z * Z) :=
  map (fun pv => let v' := pv.2 + axis_force pv.1 (map fst l) in
                 (pv.1 + v', v')) l.

(** An advance undone on one axis: move back, then take the pull off. *)
Definition axis_back (l : list (Z * Z)) : list (Z * Z) :=
  let ps := map (fun pv => pv.1 - pv.2) l in
  map (fun pv => (pv.1 - pv.2, pv.2 - axis_force (pv.1 - pv.2) ps)) l.

(** * Properties *)

Example parse_vec_ex1 :
  parse_vec "<x=-1, y=0, z=2>" = Ok (Vector3.mk (-1) 0 2).
Proof. reflexivity. Qed.

Example parse_vec_ex2 : parse_vec "<x=1, y=2>" = Raise IndexError.
Proof. reflexivity. Qed.

Example parse_vec_ex3 : parse_vec "<x=1, y=a, z=3>" = Raise ValueError.
Proof. reflexivity. Qed.

Example lcm_4_6 : lcm 4 6 = Ok 12.
Proof. reflexivity. Qed.

Example lcms_ex : lcms [18; 28; 44] = Ok 2772.
Proof. reflexivity. Qed.

Example main_example : main example_lines 3000 = Some (Ok (183, 2772)).
Proof. vm_compute. reflexivity. Qed.

Example two_moons :
  System.advance (System.new [0%nat; 1%nat],
                  [Moon.new (Vector3.mk 3 0 0); Moon.new (Vector3.mk 5 0 0)])
  = (System.mk [0%nat; 1%nat] 1 false,
     [Moon.mk (Vector3.mk 4 0 0) (Vector3.mk 1 0 0);
      Moon.mk (Vector3.mk 4 0 0) (Vector3.mk (-1) 0 0)]).
Proof. reflexivity. Qed.

(** ** Vectors *)

Lemma sign1_cases c :
  (c < 0 ∧ Vector3.sign1 c = -1) ∨ (c = 0 ∧ Vector3.sign1 c = 0)
  ∨ (0 < c ∧ Vector3.sign1 c = 1).
Proof.
  unfold Vector3.sign1.
  destruct (Z.ltb_spec c 0); [by left|].
  destruct (Z.eqb_spec c 0); [by right; left|right; right; lia].
Qed.

Lemma sign_components v :
  Vector3.sign v = Vector3.mk (Vector3.sign1 (Vector3.x v))
                     (Vector3.sign1 (Vector3.y v)) (Vector3.sign1 (Vector3.z v)).
Proof. reflexivity. Qed.

Lemma vec_eq (u v : Vector3.t) :
  Vector3.x u = Vector3.x v → Vector3.y u = Vector3.y v →
  Vector3.z u = Vector3.z v → u = v.
Proof. destruct u, v; simpl; congruence. Qed.

Ltac vec := intros; apply vec_eq; simpl; lia.

Lemma vsub_vsub u a b :
  Vector3.sub (Vector3.sub u a) b = Vector3.sub u (Vector3.add a b).
Proof. vec. Qed.

Lemma vadd_zero_r u : Vector3.add u Vector3.zero = u.
Proof. vec. Qed.

Lemma vsub_zero_r u : Vector3.sub u Vector3.zero = u.
Proof. vec. Qed.

Lemma vadd_vsub_vadd u s a b :
  Vector3.add (Vector3.sub (Vector3.add u s) a) b
  = Vector3.add (Vector3.sub u a) (Vector3.add s b).
Proof. vec. Qed.

Lemma vadd_vsub_cancel u s t :
  Vector3.add (Vector3.add (Vector3.sub u s) (Vector3.add t s)) Vector3.zero
  = Vector3.add u t.
Proof. vec. Qed.

(** ** The store under [gravity_pair] *)

Lemma gravity_pair_length h c : length (System.gravity_pair h c) = length h.
Proof.
  destruct c as [|m1 [|m2 [|]]]; simpl; try done.
  by rewrite !length_alter.
Qed.

Lemma alter_velocity_pos (f : Moon.t → Vector3.t) (h : heap) i a :
  pos (alter (fun m => set_velocity (f m) m) i h) a = pos h a.
Proof.
  unfold pos. rewrite list_lookup_total_alter. by case_decide as E; [destruct E as [-> _]|].
Qed.

Lemma gravity_pair_pos h c a : pos (System.gravity_pair h c) a = pos h a.
Proof.
  destruct c as [|m1 [|m2 [|]]]; simpl; try done.
  by rewrite !alter_velocity_pos.
Qed.

Lemma gravity_pair_other h m1 m2 a :
  a ≠ m1 → a ≠ m2 → System.gravity_pair h [m1; m2] !!! a = h !!! a.
Proof.
  intros. simpl. by rewrite !list_lookup_total_alter_ne.
Qed.

Lemma gravity_pair_fst h m1 m2 :
  m1 ≠ m2 → (m1 < length h)%nat →
  vel (System.gravity_pair h [m1; m2]) m1
  = Vector3.sub (vel h m1) (pull h m1 m2).
Proof.
  intros. unfold vel; simpl.
  rewrite list_lookup_total_alter_ne by done.
  by rewrite list_lookup_total_alter_eq.
Qed.

Lemma gravity_pair_snd h m1 m2 :
  m1 ≠ m2 → (m2 < length h)%nat →
  vel (System.gravity_pair h [m1; m2]) m2
  = Vector3.add (vel h m2) (pull h m1 m2).
Proof.
  intros. unfold vel; simpl.
  rewrite list_lookup_total_alter_eq by (by rewrite length_alter).
  by rewrite list_lookup_total_alter_ne.
Qed.

Lemma pull_ext h h' a b :
  (∀ c, pos h' c = pos h c) → pull h' a b = pull h a b.
Proof. intros E. unfold pull. by rewrite !E. Qed.

Lemma combinations_1 {A} (l : list A) :
  combinations l 1 = map (fun b => [b]) l.
Proof.
  induction l as [|b l IH]; [done|].
  simpl. rewrite IH. clear IH. by destruct l.
Qed.

Lemma combinations_2_cons {A} (a : A) (l : list A) :
  combinations (a :: l) 2 = map (fun b => [a; b]) l ++ combinations l 2.
Proof.
  change (combinations (a :: l) 2)
    with (map (cons a) (combinations l 1) ++ combinations l 2).
  by rewrite combinations_1, map_map.
Qed.

Arguments System.gravity_pair : simpl never.

Lemma gravity_pair_outside h c a :
  a ∉ c → System.gravity_pair h c !!! a = h !!! a.
Proof.
  destruct c as [|m1 [|m2 [|]]]; try done.
  intros Ha. apply gravity_pair_other; set_solver.
Qed.

Lemma foldl_gravity_pos cs h a :
  pos (foldl System.gravity_pair h cs) a = pos h a.
Proof.
  revert h. induction cs as [|c cs IH]; intros h; simpl; [done|].
  by rewrite IH, gravity_pair_pos.
Qed.

Lemma foldl_gravity_length cs h :
  length (foldl System.gravity_pair h cs) = length h.
Proof.
  revert h. induction cs as [|c cs IH]; intros h; simpl; [done|].
  by rewrite IH, gravity_pair_length.
Qed.

Lemma foldl_gravity_outside cs h a :
  (∀ c, c ∈ cs → a ∉ c) →
  foldl System.gravity_pair h cs !!! a = h !!! a.
Proof.
  revert h. induction cs as [|c cs IH]; intros h Hcs; simpl; [done|].
  rewrite IH by (intros; apply Hcs; set_solver).
  apply gravity_pair_outside, Hcs. set_solver.
Qed.

Lemma combinations_2_elem {A} (l : list A) c a :
  c ∈ combinations l 2 → a ∈ c → a ∈ l.
Proof.
  induction l as [|b l IH]; [by intros ?%elem_of_nil|].
  rewrite combinations_2_cons, elem_of_app, list_elem_of_fmap.
  intros [(b' & -> & Hb')|Hc] Ha; set_solver.
Qed.

(** One row of the pair loop: the pairs whose first Moon is [a]. *)
Lemma gravity_row t : ∀ h a,
  a ∉ t → NoDup t → (a < length h)%nat →
  Forall (fun b => (b < length h)%nat) t →
  let h' := foldl System.gravity_pair h (map (fun b => [a; b]) t) in
  vel h' a = Vector3.sub (vel h a) (vsum (map (pull h a) t))
  ∧ (∀ b, b ∈ t → vel h' b = Vector3.add (vel h b) (pull h a b))
  ∧ (∀ c, c ≠ a → c ∉ t → h' !!! c = h !!! c)
  ∧ length h' = length h.
Proof.
  induction t as [|b t IH]; intros h a Ha Hnd Hlt Hall; simpl.
  { split_and!; [by rewrite vsub_zero_r|by intros ? ?%elem_of_nil|done|done]. }
  apply not_elem_of_cons in Ha as [Hab Ha'].
  apply NoDup_cons in Hnd as [Hb Hnd].
  apply Forall_cons in Hall as [Hbl Hall].
  remember (System.gravity_pair h [a; b]) as h1 eqn:Hh1.
  assert (Hlen : length h1 = length h)
    by (by rewrite Hh1, gravity_pair_length).
  assert (Hpull : ∀ u v, pull h1 u v = pull h u v).
  { intros. apply pull_ext. intros. rewrite Hh1. apply gravity_pair_pos. }
  destruct (IH h1 a Ha' Hnd) as (Va & Vb & Vo & Vl).
  { by rewrite Hlen. }
  { by rewrite Hlen. }
  split_and!.
  - rewrite Va, (map_ext _ _ (Hpull a)).
    replace (vel h1 a) with (Vector3.sub (vel h a) (pull h a b))
      by (by rewrite Hh1, gravity_pair_fst).
    by rewrite vsub_vsub.
  - intros b' [->|Hb']%elem_of_cons.
    + trans (vel h1 b); [unfold vel; by rewrite Vo|].
      by rewrite Hh1, gravity_pair_snd.
    + rewrite (Vb b' Hb'), Hpull. f_equal.
      unfold vel. rewrite Hh1, gravity_pair_other; [done| |]; set_solver.
  - intros c Hca Hc. apply not_elem_of_cons in Hc as [Hcb Hc].
    rewrite (Vo c Hca Hc), Hh1. by apply gravity_pair_other.
  - by rewrite Vl.
Qed.

(** The net effect of [apply_gravity] on the Moon at [a]: one pull for
    every Moon after it in the list and one for every Moon before it. *)
Lemma foldl_gravity_vel l1 : ∀ h a l2,
  NoDup (l1 ++ a :: l2) →
  Forall (fun b => (b < length h)%nat) (l1 ++ a :: l2) →
  vel (foldl System.gravity_pair h (combinations (l1 ++ a :: l2) 2)) a
  = Vector3.add (Vector3.sub (vel h a) (vsum (map (pull h a) l2)))
      (vsum (map (fun b => pull h b a) l1)).
Proof.
  induction l1 as [|x l1 IH]; intros h a l2 Hnd Hall; simpl app in *.
  - apply NoDup_cons in Hnd as [Ha Hnd].
    apply Forall_cons in Hall as [Hlt Hall].
    rewrite combinations_2_cons, foldl_app.
    destruct (gravity_row l2 h a Ha Hnd Hlt Hall) as (Va & _).
    trans (vel (foldl System.gravity_pair h (map (fun b => [a; b]) l2)) a).
    + unfold vel. rewrite foldl_gravity_outside; [done|].
      intros c Hc Hac. by apply Ha, (combinations_2_elem l2 c a).
    + rewrite Va. simpl. by rewrite vadd_zero_r.
  - pose proof Hnd as Hnd'. pose proof Hall as Hall'.
    apply NoDup_cons in Hnd as [Hx Hnd].
    apply Forall_cons in Hall as [Hlt Hall].
    rewrite combinations_2_cons, foldl_app.
    destruct (gravity_row (l1 ++ a :: l2) h x Hx Hnd Hlt Hall)
      as (_ & Vb & _ & Vl).
    set (h1 := foldl System.gravity_pair h _) in *.
    assert (Hpull : ∀ u v, pull h1 u v = pull h u v).
    { intros. apply pull_ext. intros. apply foldl_gravity_pos. }
    rewrite IH; [|done|by rewrite Vl].
    rewrite Vb by set_solver.
    rewrite (map_ext _ _ (Hpull a)).
    rewrite (map_ext (fun b => pull h1 b a) (fun b => pull h b a))
      by (intros; apply Hpull).
    simpl. by rewrite vadd_vsub_vadd.
Qed.

(** ** Momentum *)

Lemma vsum_map_add {A} (F G : A → Vector3.t) (l : list A) :
  vsum (map (fun b => Vector3.add (F b) (G b)) l)
  = Vector3.add (vsum (map F l)) (vsum (map G l)).
Proof.
  induction l as [|b l IH]; simpl; [by vec|].
  rewrite IH. generalize (vsum (map F l)) (vsum (map G l)) (F b) (G b). vec.
Qed.

Lemma map_ext_elem {A B} (f g : A → B) (l : list A) :
  (∀ a, a ∈ l → f a = g a) → map f l = map g l.
Proof.
  intros E. apply map_ext_in. intros a Ha. by apply E, list_elem_of_In.
Qed.

Lemma foldl_gravity_momentum l : ∀ h,
  NoDup l → Forall (fun b => (b < length h)%nat) l →
  vsum (map (vel (foldl System.gravity_pair h (combinations l 2))) l)
  = vsum (map (vel h) l).
Proof.
  induction l as [|x t IH]; intros h Hnd Hall; [done|].
  apply NoDup_cons in Hnd as [Hx Hnd].
  apply Forall_cons in Hall as [Hlt Hall].
  rewrite combinations_2_cons, foldl_app.
  destruct (gravity_row t h x Hx Hnd Hlt Hall) as (Vx & Vb & _ & Vl).
  set (h1 := foldl System.gravity_pair h (map (fun b => [x; b]) t)) in *.
  simpl. rewrite IH; [|done|by rewrite Vl].
  replace (vel (foldl System.gravity_pair h1 (combinations t 2)) x)
    with (vel h1 x).
  - rewrite Vx, (map_ext_elem _ _ _ Vb), vsum_map_add.
    generalize (vsum (map (pull h x) t)) (vsum (map (vel h) t)) (vel h x). vec.
  - unfold vel. rewrite foldl_gravity_outside; [done|].
    intros c Hc Hxc. by apply Hx, (combinations_2_elem t c x).
Qed.

(** ** [tick] *)

Lemma foldl_move_length l : ∀ h : heap,
  length (foldl (fun h' a => alter Moon.move a h') h l) = length h.
Proof.
  induction l as [|x t IH]; intros h; simpl; [done|].
  by rewrite IH, length_alter.
Qed.

Lemma foldl_move_outside l : ∀ (h : heap) a,
  a ∉ l → foldl (fun h' a => alter Moon.move a h') h l !! a = h !! a.
Proof.
  induction l as [|x t IH]; intros h a Ha; simpl; [done|].
  apply not_elem_of_cons in Ha as [Hax Ha'].
  rewrite IH by done. by apply list_lookup_alter_ne.
Qed.

Lemma foldl_move_inside l : ∀ (h : heap) a,
  NoDup l → a ∈ l → (a < length h)%nat →
  foldl (fun h' a => alter Moon.move a h') h l !!! a = Moon.move (h !!! a).
Proof.
  induction l as [|x t IH]; intros h a Hnd Ha Hlt; simpl.
  { by apply elem_of_nil in Ha. }
  apply NoDup_cons in Hnd as [Hx Hnd].
  apply elem_of_cons in Ha as [->|Ha].
  - rewrite list_lookup_total_alt, foldl_move_outside by done.
    rewrite <- list_lookup_total_alt. by apply list_lookup_total_alter_eq.
  - rewrite IH; [|done|done|by rewrite length_alter].
    f_equal. apply list_lookup_total_alter_ne. by intros ->.
Qed.

(** ** The pairs visited by [apply_gravity] *)

Lemma combinations_2_double {A} (l : list A) :
  (2 * length (combinations l 2) = length l * (length l - 1))%nat.
Proof.
  induction l as [|a l IH]; [done|].
  rewrite combinations_2_cons, length_app, length_map.
  cbn [length]. nia.
Qed.

Lemma combinations_2_length {A} (l : list A) :
  length (combinations l 2) = (length l * (length l - 1) / 2)%nat.
Proof.
  rewrite <- combinations_2_double, Nat.mul_comm. symmetry.
  by apply Nat.div_mul.
Qed.

Lemma combinations_2_lookup {A} (l : list A) c :
  c ∈ combinations l 2 ↔
  ∃ i j a b, (i < j)%nat ∧ l !! i = Some a ∧ l !! j = Some b ∧ c = [a; b].
Proof.
  induction l as [|x t IH].
  { split; [by intros ?%elem_of_nil|by intros (i & j & a & b & _ & ? & _)]. }
  rewrite combinations_2_cons, elem_of_app, list_elem_of_fmap, IH. split.
  - intros [(b & -> & Hb)|(i & j & a & b & Hij & Hi & Hj & ->)].
    + apply list_elem_of_lookup in Hb as [j Hj].
      exists O, (S j), x, b. split_and!; [lia|done..].
    + exists (S i), (S j), a, b. split_and!; [lia|done..].
  - intros (i & j & a & b & Hij & Hi & Hj & ->).
    destruct j as [|j]; [lia|]. destruct i as [|i]; simpl in *.
    + left. exists b. split; [congruence|].
      apply list_elem_of_lookup. by exists j.
    + right. exists i, j, a, b. split_and!; [lia|done..].
Qed.

Lemma combinations_2_NoDup {A} (l : list A) :
  NoDup l → NoDup (combinations l 2).
Proof.
  induction l as [|x t IH]; intros Hnd.
  { apply NoDup_nil_2. }
  apply NoDup_cons in Hnd as [Hx Hnd].
  rewrite combinations_2_cons. apply NoDup_app. split_and!.
  - apply NoDup_fmap_2; [|done]. by intros b b' [= ->].
  - intros c (b & -> & Hb)%list_elem_of_fmap Hc.
    apply Hx, (combinations_2_elem t [x; b] x Hc). by left.
  - by apply IH.
Qed.

Lemma combinations_2_ordered {A} (l : list A) i j a b :
  NoDup l → (i < j)%nat → l !! i = Some a → l !! j = Some b →
  [a; b] ∈ combinations l 2 ∧ [b; a] ∉ combinations l 2.
Proof.
  intros Hnd Hij Hi Hj. split.
  - apply combinations_2_lookup. by exists i, j, a, b.
  - intros (i' & j' & a' & b' & Hij' & Hi' & Hj' & [= <- <-])
      %combinations_2_lookup.
    pose proof (NoDup_lookup l _ _ _ Hnd Hi Hj').
    pose proof (NoDup_lookup l _ _ _ Hnd Hj Hi'). lia.
Qed.

Lemma combinations_2_unordered {A} (l : list A) a b :
  NoDup l → a ∈ l → b ∈ l → a ≠ b →
  ([a; b] ∈ combinations l 2 ∧ [b; a] ∉ combinations l 2)
  ∨ ([b; a] ∈ combinations l 2 ∧ [a; b] ∉ combinations l 2).
Proof.
  intros Hnd [i Hi]%list_elem_of_lookup [j Hj]%list_elem_of_lookup Hab.
  destruct (Nat.lt_trichotomy i j) as [Hij|[->|Hji]].
  - left. by apply (combinations_2_ordered l i j).
  - congruence.
  - right. by apply (combinations_2_ordered l j i).
Qed.

(** ** The claims about [System] *)

(** C2. One call of [apply_gravity] on a System of N distinct Moons runs
    the pair update over the 2-combinations of its list: there are
    N*(N-1)/2 of them, none is visited twice, they are the pairs (i, j)
    of list positions with i < j, so of two distinct Moons exactly one
    order is visited.  The update for the pair (a, b) takes
    s = sign(position_a - position_b), where [sign] maps each component
    to -1, 0 or 1 by its sign, subtracts s from the velocity of a and adds
    it to the velocity of b, and changes nothing else.  In all, no position
    changes and the Moon at [a] ends with its velocity minus one pull for
    every Moon after it in the list plus one for every Moon before it. *)
Theorem apply_gravity_pairs (s : System.t) (h : heap) :
  valid s h →
  let l := System.moons s in
  let cs := combinations l 2 in
  let h' := System.apply_gravity s h in
  length cs = (length l * (length l - 1) / 2)%nat
  ∧ NoDup cs
  ∧ (∀ c, c ∈ cs ↔
       ∃ i j a b, (i < j)%nat ∧ l !! i = Some a ∧ l !! j = Some b
                  ∧ c = [a; b])
  ∧ (∀ a b, a ∈ l → b ∈ l → a ≠ b →
       ([a; b] ∈ cs ∧ [b; a] ∉ cs) ∨ ([b; a] ∈ cs ∧ [a; b] ∉ cs))
  ∧ h' = foldl System.gravity_pair h cs
  ∧ (∀ (h0 : heap) a b,
       a ≠ b → (a < length h0)%nat → (b < length h0)%nat →
       let sg := Vector3.sign (Vector3.sub (pos h0 a) (pos h0 b)) in
       let h1 := System.gravity_pair h0 [a; b] in
       vel h1 a = Vector3.sub (vel h0 a) sg
       ∧ vel h1 b = Vector3.add (vel h0 b) sg
       ∧ (∀ c, pos h1 c = pos h0 c)
       ∧ (∀ c, c ≠ a → c ≠ b → h1 !!! c = h0 !!! c))
  ∧ (∀ v, Vector3.sign v
          = Vector3.mk (Vector3.sign1 (Vector3.x v))
              (Vector3.sign1 (Vector3.y v)) (Vector3.sign1 (Vector3.z v)))
  ∧ (∀ c, (c < 0 ∧ Vector3.sign1 c = -1) ∨ (c = 0 ∧ Vector3.sign1 c = 0)
          ∨ (0 < c ∧ Vector3.sign1 c = 1))
  ∧ (∀ a, pos h' a = pos h a)
  ∧ (∀ l1 a l2, l = l1 ++ a :: l2 →
       vel h' a
       = Vector3.add (Vector3.sub (vel h a) (vsum (map (pull h a) l2)))
           (vsum (map (fun b => pull h b a) l1)))
  ∧ (∀ a, a ∉ l → h' !!! a = h !!! a)
  ∧ length h' = length h.
Proof.
  intros [Hnd Hall] l cs h'. subst l cs h'. unfold System.apply_gravity.
  split_and!.
  - apply combinations_2_length.
  - by apply combinations_2_NoDup.
  - apply combinations_2_lookup.
  - intros. by apply combinations_2_unordered.
  - done.
  - intros h0 a b Hab Ha Hb. split_and!.
    + by apply gravity_pair_fst.
    + by apply gravity_pair_snd.
    + intros. apply gravity_pair_pos.
    + intros. by apply gravity_pair_other.
  - apply sign_components.
  - apply sign1_cases.
  - intros. apply foldl_gravity_pos.
  - intros l1 a l2 E. rewrite E in *. by apply foldl_gravity_vel.
  - intros a Ha. apply foldl_gravity_outside.
    intros c Hc Hac. by apply Ha, (combinations_2_elem _ c a).
  - apply foldl_gravity_length.
Qed.

Lemma apply_gravity_pairs_witness :
  let s := System.new [0; 1]%nat in
  let h := [Moon.new (Vector3.mk 3 0 0); Moon.new (Vector3.mk 5 0 0)] in
  valid s h ∧
  vel (System.apply_gravity s h) 1%nat = Vector3.mk (-1) 0 0.
Proof.
  intros s h.
  assert (Hv : valid s h) by (apply (bool_decide_unpack _); vm_compute; exact I).
  split; [exact Hv|].
  destruct (apply_gravity_pairs s h Hv)
    as (_ & _ & _ & _ & _ & _ & _ & _ & _ & Hvel & _).
  exact (Hvel [0%nat] 1%nat [] eq_refl).
Defined.

(** C3. Momentum: [apply_gravity] leaves the sum of the velocities of
    the Moons of a System unchanged, for any number of (distinct) Moons
    and any velocities. *)
Theorem apply_gravity_momentum (s : System.t) (h : heap) :
  valid s h →
  vsum (map (vel (System.apply_gravity s h)) (System.moons s))
  = vsum (map (vel h) (System.moons s)).
Proof. intros [Hnd Hall]. by apply foldl_gravity_momentum. Qed.

Lemma apply_gravity_momentum_witness :
  let s := System.new [0; 1; 2]%nat in
  let h := [Moon.mk (Vector3.mk 3 0 1) (Vector3.mk 1 2 3);
            Moon.mk (Vector3.mk 5 0 0) (Vector3.mk 0 0 0);
            Moon.mk (Vector3.mk (-4) 7 0) (Vector3.mk 0 (-1) 0)] in
  valid s h ∧
  vsum (map (vel (System.apply_gravity s h)) (System.moons s))
  = Vector3.mk 1 1 3.
Proof.
  intros s h.
  assert (Hv : valid s h) by (apply (bool_decide_unpack _); vm_compute; exact I).
  split; [exact Hv|].
  rewrite (apply_gravity_momentum s h Hv). reflexivity.
Defined.

(** C4. [tick] adds exactly 1 to the step counter, keeps the list of
    Moons as it is, replaces the position of every Moon of the System by
    position + velocity (componentwise, Moon by Moon in list order) and
    leaves every velocity, and every object outside the System, unchanged. *)
Theorem tick_effect (s : System.t) (h : heap) :
  valid s h →
  let s' := (System.tick s h).1 in
  let h' := (System.tick s h).2 in
  System.step s' = System.step s + 1
  ∧ System.moons s' = System.moons s
  ∧ length h' = length h
  ∧ (∀ a, a ∈ System.moons s →
       pos h' a = Vector3.add (pos h a) (vel h a) ∧ vel h' a = vel h a)
  ∧ map (fun a => h' !!! a) (System.moons s)
    = map (fun a => Moon.mk (Vector3.add (pos h a) (vel h a)) (vel h a))
        (System.moons s)
  ∧ (∀ u v, Vector3.add u v
            = Vector3.mk (Vector3.x u + Vector3.x v)
                (Vector3.y u + Vector3.y v) (Vector3.z u + Vector3.z v))
  ∧ (∀ a, a ∉ System.moons s → h' !! a = h !! a).
Proof.
  intros [Hnd Hall]. simpl.
  assert (Hin : ∀ a, a ∈ System.moons s →
            foldl (fun h' a => alter Moon.move a h') h (System.moons s) !!! a
            = Moon.move (h !!! a)).
  { intros a Ha. apply foldl_move_inside; [done..|].
    by apply (proj1 (Forall_forall _ _) Hall). }
  split_and!; [done|done|apply foldl_move_length| | |done|].
  - intros a Ha. unfold pos, vel. by rewrite (Hin a Ha).
  - apply map_ext_elem. intros a Ha. by rewrite (Hin a Ha).
  - intros. by apply foldl_move_outside.
Qed.

Lemma tick_effect_witness :
  let s := System.new [0; 1]%nat in
  let h := [Moon.mk (Vector3.mk 3 0 0) (Vector3.mk 1 0 0);
            Moon.mk (Vector3.mk 5 0 0) (Vector3.mk (-1) 0 0)] in
  valid s h ∧ System.step (System.tick s h).1 = 1.
Proof.
  intros s h.
  assert (Hv : valid s h) by (apply (bool_decide_unpack _); vm_compute; exact I).
  split; [exact Hv|].
  destruct (tick_effect s h Hv) as (Hstep & _). exact Hstep.
Defined.

(** ** Part 1 *)

Lemma build_from vecs : ∀ (h : heap) (ms : list loc),
  foldl (fun '(h, ms) v => let '(h', a) := alloc h (Moon.new v) in
                           (h', ms ++ [a])) (h, ms) vecs
  = (h ++ map Moon.new vecs, ms ++ seq (length h) (length vecs)).
Proof.
  induction vecs as [|v vecs IH]; intros h ms; simpl.
  { by rewrite !app_nil_r. }
  rewrite IH, length_app, <- !app_assoc. simpl.
  by rewrite Nat.add_1_r.
Qed.

Lemma build_spec vecs :
  build vecs = (map Moon.new vecs, seq 0 (length vecs)).
Proof. unfold build. by rewrite build_from. Qed.

Lemma advance_spec s h :
  System.advance (s, h)
  = (System.mk (System.moons s) (System.step s + 1) (System.debug s),
     (System.tick s (System.apply_gravity s h)).2).
Proof. done. Qed.

Lemma advance_length s h :
  length (System.advance (s, h)).2 = length h.
Proof.
  simpl. rewrite foldl_move_length. apply foldl_gravity_length.
Qed.

Lemma iter_advance n : ∀ s h,
  (Nat.iter n System.advance (s, h)).1
  = System.mk (System.moons s) (System.step s + Z.of_nat n) (System.debug s)
  ∧ length (Nat.iter n System.advance (s, h)).2 = length h.
Proof.
  induction n as [|n IH]; intros s h.
  { simpl. destruct s; simpl. split; [f_equal; lia|done]. }
  rewrite Nat.iter_succ.
  destruct (IH s h) as [E1 E2].
  destruct (Nat.iter n System.advance (s, h)) as [sn hn]; simpl in E1, E2.
  rewrite advance_spec. split.
  - simpl. rewrite E1. simpl. f_equal. lia.
  - rewrite <- E2. apply (advance_length sn hn).
Qed.

Lemma foldl_add_foldr {A} (f : A → Z) (l : list A) : ∀ z,
  foldl Z.add z (map f l) = z + foldr (fun m acc => f m + acc) 0 l.
Proof.
  induction l as [|m l IH]; intros z; simpl; [lia|].
  rewrite IH. lia.
Qed.

Lemma total_energy_formula m :
  Moon.total_energy m
  = (Z.abs (Vector3.x (Moon.position m)) + Z.abs (Vector3.y (Moon.position m))
     + Z.abs (Vector3.z (Moon.position m)))
    * (Z.abs (Vector3.x (Moon.velocity m)) + Z.abs (Vector3.y (Moon.velocity m))
       + Z.abs (Vector3.z (Moon.velocity m))).
Proof. done. Qed.

Lemma lookup_total_seq (h : heap) :
  map (fun a => h !!! a) (seq 0 (length h)) = h.
Proof.
  induction h as [|m h IH]; [done|].
  cbn [length seq map]. f_equal.
  rewrite <- fmap_S_seq.
  change (S <$> seq 0 (length h)) with (map S (seq 0 (length h))).
  rewrite map_map. exact IH.
Qed.

Lemma energy_formula_spec s h :
  System.energy s h
  = energy_formula (map (fun a => h !!! a) (System.moons s)).
Proof.
  unfold System.energy, energy_formula.
  rewrite foldl_add_foldr, Z.add_0_l.
  induction (System.moons s) as [|a l IH]; simpl; [done|].
  by rewrite IH.
Qed.

(** C5. Part 1 builds one Moon per parsed vector (zero velocity, in input
    order) and a System over them, advances it exactly 1000 times, each
    advance being [apply_gravity] followed by [tick], and the value it
    reports is the sum over the Moons of
    (|px| + |py| + |pz|) * (|vx| + |vy| + |vz|) in the state reached. *)
Theorem part1_energy (vecs : list Vector3.t) :
  let ms := seq 0 (length vecs) in
  let final :=
    Nat.iter 1000 System.advance (System.new ms, map Moon.new vecs) in
  build vecs = (map Moon.new vecs, ms)
  ∧ (∀ s h, System.advance (s, h) = System.tick s (System.apply_gravity s h))
  ∧ System.step final.1 = 1000
  ∧ System.moons final.1 = ms
  ∧ after_part1 vecs = (ms, final.2, energy_formula final.2)
  ∧ (∀ fuel r, script vecs fuel = Some (Ok r) → r.1 = energy_formula final.2).
Proof.
  intros ms final.
  assert (Hafter : after_part1 vecs = (ms, final.2, energy_formula final.2)).
  { unfold after_part1, part1_run. rewrite build_spec. fold ms. fold final.
    destruct (iter_advance 1000 (System.new ms) (map Moon.new vecs))
      as [E1 E2]. fold final in E1, E2.
    destruct final as [s1 h1]; simpl in *. repeat f_equal.
    rewrite energy_formula_spec, E1. simpl. subst ms.
    rewrite length_map in E2. rewrite <- E2. by rewrite lookup_total_seq. }
  destruct (iter_advance 1000 (System.new ms) (map Moon.new vecs)) as [E1 _].
  fold final in E1.
  split_and!; [apply build_spec|done|by rewrite E1|by rewrite E1|done|].
  clearbody final. intros fuel r. unfold script. rewrite Hafter.
  destruct (part2_loop fuel (part2_start vecs)) as [[p|e]|]; [|done..].
  destruct (part2_answer p); cbn [mbind result_bind]; [|done].
  by intros [= <-].
Qed.

(** ** The loop of Part 2 *)

Lemma enumerate_xyz :
  enumerate "xyz" = [(0%nat, "x"); (1%nat, "y"); (2%nat, "z")].
Proof. reflexivity. Qed.

Ltac check_axis_tac :=
  match goal with
  | |- represents _ ?a0 ?a1 ?a2 → _ =>
      intros (Hp & Hx & Hy & Hz); unfold check_axis, index; rewrite Hp;
      simpl;
      match goal with
      | |- context [ax_next _ _ ?a] =>
          destruct a as [seen|p]; simpl;
          [ rewrite ?Hx, ?Hy, ?Hz; simpl; case_bool_decide;
            (eexists; split; [reflexivity|]; unfold represents; simpl;
             rewrite ?Hp; simpl;
             rewrite ?lookup_delete_eq, ?lookup_insert_eq;
             rewrite ?lookup_delete_ne, ?lookup_insert_ne by done;
             done)
          | eexists; split; [reflexivity|]; done ]
      end
  end.

Lemma check_axis_x s0 s1 s2 st a0 a1 a2 :
  represents st a0 a1 a2 →
  ∃ st', check_axis [s0; s1; s2] st (0%nat, "x") = Ok st'
    ∧ jupiter st' = jupiter st ∧ store st' = store st
    ∧ represents st' (ax_next (System.step (jupiter st)) s0 a0) a1 a2.
Proof. check_axis_tac. Qed.

Lemma check_axis_y s0 s1 s2 st a0 a1 a2 :
  represents st a0 a1 a2 →
  ∃ st', check_axis [s0; s1; s2] st (1%nat, "y") = Ok st'
    ∧ jupiter st' = jupiter st ∧ store st' = store st
    ∧ represents st' a0 (ax_next (System.step (jupiter st)) s1 a1) a2.
Proof. check_axis_tac. Qed.

Lemma check_axis_z s0 s1 s2 st a0 a1 a2 :
  represents st a0 a1 a2 →
  ∃ st', check_axis [s0; s1; s2] st (2%nat, "z") = Ok st'
    ∧ jupiter st' = jupiter st ∧ store st' = store st
    ∧ represents st' a0 a1 (ax_next (System.step (jupiter st)) s2 a2).
Proof. check_axis_tac. Qed.

Arguments check_axis : simpl never.

(** One pass of the [for] loop never raises and performs the three
    searches side by side. *)
Lemma check_represents st a0 a1 a2 :
  represents st a0 a1 a2 →
  ∃ st', check st = Ok st'
    ∧ jupiter st' = jupiter st ∧ store st' = store st
    ∧ represents st'
        (ax_next (System.step (jupiter st))
           (System.axis_state Vector3.x (jupiter st) (store st)) a0)
        (ax_next (System.step (jupiter st))
           (System.axis_state Vector3.y (jupiter st) (store st)) a1)
        (ax_next (System.step (jupiter st))
           (System.axis_state Vector3.z (jupiter st) (store st)) a2).
Proof.
  intros R. unfold check, System.state. rewrite enumerate_xyz.
  set (s0 := System.axis_state Vector3.x (jupiter st) (store st)).
  set (s1 := System.axis_state Vector3.y (jupiter st) (store st)).
  set (s2 := System.axis_state Vector3.z (jupiter st) (store st)).
  destruct (check_axis_x s0 s1 s2 st _ _ _ R) as (st1 & E1 & J1 & S1 & R1).
  destruct (check_axis_y s0 s1 s2 st1 _ _ _ R1) as (st2 & E2 & J2 & S2 & R2).
  destruct (check_axis_z s0 s1 s2 st2 _ _ _ R2) as (st3 & E3 & J3 & S3 & R3).
  exists st3. simpl. rewrite E1. simpl. rewrite E2. simpl.
  rewrite J2, J1 in R3. rewrite J1 in R2.
  split_and!; [exact E3|congruence|congruence|exact R3].
Qed.

Lemma traj_succ ms h n :
  traj ms h (S n) = System.advance (traj ms h n).
Proof. done. Qed.

Lemma traj_step ms h n : System.step (traj ms h n).1 = Z.of_nat n.
Proof.
  unfold traj. destruct (iter_advance n (System.new ms) h) as [-> _]. done.
Qed.

Lemma traj_moons ms h n : System.moons (traj ms h n).1 = ms.
Proof.
  unfold traj. destruct (iter_advance n (System.new ms) h) as [-> _]. done.
Qed.

Lemma part2_init_represents ms h :
  represents (part2_init ms h) (Searching ∅) (Searching ∅) (Searching ∅).
Proof. by split_and!. Qed.

(** A pass of the [for] loop in the state reached after [n] advances. *)
Lemma check_run ms h n st :
  (jupiter st, store st) = traj ms h n →
  represents st (ax_run ms h 0 n) (ax_run ms h 1 n) (ax_run ms h 2 n) →
  ∃ st', check st = Ok st'
    ∧ (jupiter st', store st') = traj ms h n
    ∧ represents st' (ax_run ms h 0 (S n)) (ax_run ms h 1 (S n))
        (ax_run ms h 2 (S n)).
Proof.
  intros T R.
  destruct (check_represents st _ _ _ R) as (st' & E & J & S & R').
  exists st'. split_and!; [done|by rewrite J, S|].
  assert (Hstep : System.step (jupiter st) = Z.of_nat n).
  { rewrite <- (traj_step ms h n), <- T. done. }
  rewrite Hstep in R'. simpl. unfold axis_at. rewrite <- T. exact R'.
Qed.

Lemma loop_reaches_run ms h st :
  loop_reaches (part2_init ms h) st →
  ∃ n, (jupiter st, store st) = traj ms h n
    ∧ represents st (ax_run ms h 0 n) (ax_run ms h 1 n) (ax_run ms h 2 n).
Proof.
  induction 1 as [|st st' _ (n & T & R) E A].
  - exists O. split; [done|apply part2_init_represents].
  - destruct (check_run ms h n st T R) as (st'' & E' & T' & R').
    assert (st'' = st') as -> by congruence.
    exists (S n). simpl jupiter. simpl store. simpl period. simpl history.
    split.
    + rewrite traj_succ, <- T'. symmetry. apply surjective_pairing.
    + destruct R' as (? & ? & ? & ?). by split_and!.
Qed.

(** *** What a search has found *)

Lemma ax_run_seen_pos ms h i n seen x :
  ax_run ms h i n = Searching seen → x ∈ seen → (0 < n)%nat.
Proof.
  destruct n; [|lia]. simpl. intros [= <-] Hx. set_solver.
Qed.

Lemma ax_run_found ms h i n p :
  ax_run ms h i n = Found p → 1 ≤ p < Z.of_nat n.
Proof.
  induction n as [|n IH]; simpl; [done|].
  destruct (ax_run ms h i n) as [seen|q] eqn:E; simpl.
  - case_bool_decide as Hin; [|done]. intros [= <-].
    pose proof (ax_run_seen_pos ms h i n seen _ E Hin). lia.
  - intros [= <-]. specialize (IH eq_refl). lia.
Qed.

Lemma ax_run_stable ms h i n p k :
  ax_run ms h i n = Found p → ax_run ms h i (n + k) = Found p.
Proof.
  intros E. induction k as [|k IH].
  - by rewrite Nat.add_0_r.
  - rewrite Nat.add_succ_r. simpl. by rewrite IH.
Qed.

Lemma all_periods a0 a1 a2 :
  all [ax_period a0; ax_period a1; ax_period a2] = true ↔
  ∃ p0 p1 p2, a0 = Found p0 ∧ a1 = Found p1 ∧ a2 = Found p2
              ∧ p0 ≠ 0 ∧ p1 ≠ 0 ∧ p2 ≠ 0.
Proof.
  unfold all. simpl. rewrite !andb_true_iff. split.
  - intros (H0 & H1 & H2 & _).
    destruct a0 as [|p0], a1 as [|p1], a2 as [|p2]; try done.
    simpl in *. exists p0, p1, p2.
    apply negb_true_iff, Z.eqb_neq in H0, H1, H2. by split_and!.
  - intros (p0 & p1 & p2 & -> & -> & -> & H0 & H1 & H2). simpl.
    apply Z.eqb_neq in H0, H1, H2. by rewrite H0, H1, H2.
Qed.

(** *** Leaving the loop, or not *)

Lemma loop_returns ms h p0 p1 p2 k : ∀ n st fuel,
  (jupiter st, store st) = traj ms h n →
  represents st (ax_run ms h 0 n) (ax_run ms h 1 n) (ax_run ms h 2 n) →
  ax_run ms h 0 (S n + k) = Found p0 →
  ax_run ms h 1 (S n + k) = Found p1 →
  ax_run ms h 2 (S n + k) = Found p2 →
  (k < fuel)%nat →
  part2_loop fuel st = Some (Ok [Some p0; Some p1; Some p2]).
Proof.
  induction k as [|k IH]; intros n st fuel T R F0 F1 F2 Hfuel;
    (destruct fuel as [|fuel]; [lia|]); simpl;
    destruct (check_run ms h n st T R) as (st' & -> & T' & R');
    pose proof R' as (Hp & _); rewrite Hp;
    destruct (all _) eqn:A.
  - apply all_periods in A as (q0 & q1 & q2 & E0 & E1 & E2 & _).
    rewrite Nat.add_0_r in F0, F1, F2. rewrite E0, E1, E2. simpl.
    congruence.
  - rewrite Nat.add_0_r in F0, F1, F2.
    assert (all [ax_period (ax_run ms h 0 (S n));
                 ax_period (ax_run ms h 1 (S n));
                 ax_period (ax_run ms h 2 (S n))] = true) as A'.
    { apply all_periods. exists p0, p1, p2.
      apply ax_run_found in F0 as ?, F1 as ?, F2 as ?.
      split_and!; try done; lia. }
    congruence.
  - apply all_periods in A as (q0 & q1 & q2 & E0 & E1 & E2 & _).
    rewrite (ax_run_stable _ _ _ _ _ (S k) E0) in F0.
    rewrite (ax_run_stable _ _ _ _ _ (S k) E1) in F1.
    rewrite (ax_run_stable _ _ _ _ _ (S k) E2) in F2.
    rewrite E0, E1, E2. simpl. congruence.
  - destruct (System.advance (jupiter st', store st')) as [s1 h1] eqn:Adv.
    apply (IH (S n)); [..|lia].
    + cbn [jupiter store]. by rewrite traj_succ, <- T', Adv.
    + destruct R' as (? & ? & ? & ?). by split_and!.
    + by rewrite <- Nat.add_succ_comm in F0.
    + by rewrite <- Nat.add_succ_comm in F1.
    + by rewrite <- Nat.add_succ_comm in F2.
Qed.

Lemma loop_never_returns ms h fuel : ∀ n st,
  (∀ m, ax_period (ax_run ms h 0 m) = None
        ∨ ax_period (ax_run ms h 1 m) = None
        ∨ ax_period (ax_run ms h 2 m) = None) →
  (jupiter st, store st) = traj ms h n →
  represents st (ax_run ms h 0 n) (ax_run ms h 1 n) (ax_run ms h 2 n) →
  part2_loop fuel st = None.
Proof.
  induction fuel as [|fuel IH]; intros n st Hnone T R; [done|]. simpl.
  destruct (check_run ms h n st T R) as (st' & -> & T' & R').
  pose proof R' as (Hp & _). rewrite Hp.
  destruct (all _) eqn:A.
  { apply all_periods in A as (q0 & q1 & q2 & E0 & E1 & E2 & _).
    destruct (Hnone (S n)) as [N|[N|N]];
      [rewrite E0 in N|rewrite E1 in N|rewrite E2 in N]; done. }
  destruct (System.advance (jupiter st', store st')) as [s1 h1] eqn:Adv.
  apply (IH (S n)); [done| |].
  - cbn [jupiter store]. by rewrite traj_succ, <- T', Adv.
  - destruct R' as (? & ? & ? & ?). by split_and!.
Qed.

Lemma ax_run_succ ms h i n :
  ax_run ms h i (S n)
  = ax_next (Z.of_nat n) (axis_at ms h i n) (ax_run ms h i n).
Proof. done. Qed.

Arguments ax_run : simpl never.

Lemma loop_result ms h fuel : ∀ n st r,
  (jupiter st, store st) = traj ms h n →
  represents st (ax_run ms h 0 n) (ax_run ms h 1 n) (ax_run ms h 2 n) →
  part2_loop fuel st = Some r →
  ∃ m p0 p1 p2, r = Ok [Some p0; Some p1; Some p2]
    ∧ ax_run ms h 0 m = Found p0 ∧ ax_run ms h 1 m = Found p1
    ∧ ax_run ms h 2 m = Found p2.
Proof.
  induction fuel as [|fuel IH]; intros n st r T R; [done|]. simpl.
  destruct (check_run ms h n st T R) as (st' & -> & T' & R').
  pose proof R' as (Hp & _). rewrite Hp.
  destruct (all _) eqn:A.
  - apply all_periods in A as (q0 & q1 & q2 & E0 & E1 & E2 & _).
    intros [= <-]. exists (S n), q0, q1, q2. rewrite E0, E1, E2. by split_and!.
  - destruct (System.advance (jupiter st', store st')) as [s1 h1] eqn:Adv.
    apply (IH (S n)).
    + cbn [jupiter store]. by rewrite traj_succ, <- T', Adv.
    + destruct R' as (? & ? & ? & ?). by split_and!.
Qed.

(** C10. In the loop of Part 2 the first pass, at step 0, finds every
    seen-set empty, records no period and inserts the initial state of
    each axis.  In every pass the [for] loop raises nothing, every period
    recorded so far is at least 1 (and at most the current step), so
    [all(period)] holds exactly when the three periods are found; the
    periods the loop returns are three integers, each at least 1. *)
Theorem periods_at_least_1 (ms : list loc) (h : heap) :
  (∃ st0, check (part2_init ms h) = Ok st0
     ∧ period st0 = [None; None; None]
     ∧ history st0 !! "x" = Some {[ axis_at ms h 0 0 ]}
     ∧ history st0 !! "y" = Some {[ axis_at ms h 1 0 ]}
     ∧ history st0 !! "z" = Some {[ axis_at ms h 2 0 ]})
  ∧ (∀ st, loop_reaches (part2_init ms h) st →
       ∃ st', check st = Ok st'
         ∧ (∀ i p, period st' !! i = Some (Some p) →
              1 ≤ p ≤ System.step (jupiter st))
         ∧ (all (period st') = true ↔
            ∀ i, (i < 3)%nat → ∃ p, period st' !! i = Some (Some p)))
  ∧ (∀ fuel ps, part2_loop fuel (part2_init ms h) = Some (Ok ps) →
       ∃ p0 p1 p2, ps = [Some p0; Some p1; Some p2]
                   ∧ 1 ≤ p0 ∧ 1 ≤ p1 ∧ 1 ≤ p2).
Proof.
  split_and!.
  - destruct (check_run ms h 0 (part2_init ms h) eq_refl
                (part2_init_represents ms h)) as (st0 & E & _ & R).
    exists st0. split; [done|]. destruct R as (Hp & Hx & Hy & Hz).
    rewrite !ax_run_succ in Hp, Hx, Hy, Hz.
    change (ax_run ms h ?i 0) with (Searching ∅) in Hp, Hx, Hy, Hz.
    simpl in Hp, Hx, Hy, Hz.
    rewrite !bool_decide_eq_false_2 in * by set_solver.
    simpl in *. rewrite Hx, Hy, Hz, !(right_id_L ∅ (∪)). done.
  - intros st (n & T & R)%loop_reaches_run.
    destruct (check_run ms h n st T R) as (st' & E & _ & Hp & _).
    exists st'. split; [done|].
    assert (Hstep : System.step (jupiter st) = Z.of_nat n).
    { rewrite <- (traj_step ms h n), <- T. done. }
    assert (Hpos : ∀ i p, ax_period (ax_run ms h i (S n)) = Some p →
              1 ≤ p ≤ Z.of_nat n).
    { intros i p Hi. destruct (ax_run ms h i (S n)) as [|q] eqn:Eq; [done|].
      injection Hi as ->. apply ax_run_found in Eq. lia. }
    rewrite Hp, Hstep. split.
    + intros [|[|[|i]]] p; simpl; intros [= Hi]; eauto.
    + rewrite all_periods. split.
      * intros (p0 & p1 & p2 & -> & -> & -> & _) [|[|[|i]]] Hi;
          simpl; eauto; lia.
      * intros Hall.
        destruct (Hall 0%nat) as [p0 [= H0]]; [lia|].
        destruct (Hall 1%nat) as [p1 [= H1]]; [lia|].
        destruct (Hall 2%nat) as [p2 [= H2]]; [lia|].
        pose proof (Hpos _ _ H0). pose proof (Hpos _ _ H1).
        pose proof (Hpos _ _ H2).
        exists p0, p1, p2.
        destruct (ax_run ms h 0 (S n)), (ax_run ms h 1 (S n)),
          (ax_run ms h 2 (S n)); simplify_eq/=.
        split_and!; try done; lia.
  - intros fuel ps E.
    destruct (loop_result ms h fuel 0 (part2_init ms h) _ eq_refl
                (part2_init_represents ms h) E)
      as (m & p0 & p1 & p2 & [= ->] & F0 & F1 & F2).
    exists p0, p1, p2.
    apply ax_run_found in F0, F1, F2. split_and!; [done|lia..].
Qed.

(** *** Searches and repeats *)

Lemma ax_run_spec ms h i n :
  match ax_run ms h i n with
  | Searching seen =>
      (∀ x, x ∈ seen ↔ ∃ k, (k < n)%nat ∧ x = axis_at ms h i k)
      ∧ (∀ b, (b < n)%nat → ¬ repeat_at ms h i b)
  | Found p =>
      ∃ q, p = Z.of_nat q ∧ (q < n)%nat ∧ first_repeat ms h i q
  end.
Proof.
  induction n as [|n IH].
  { change (ax_run ms h i 0) with (Searching ∅). split.
    - intros x. split; [set_solver|]. intros (k & ? & _). lia.
    - intros b ?. lia. }
  rewrite ax_run_succ.
  destruct (ax_run ms h i n) as [seen|p]; simpl.
  - destruct IH as [Hseen Hnorep]. case_bool_decide as Hin.
    + exists n. split_and!; [done|lia|]. split; [|done].
      apply Hseen in Hin as (k & Hk & E). by exists k.
    + split.
      * intros x. rewrite elem_of_union, elem_of_singleton, Hseen. split.
        -- intros [->|(k & Hk & ->)]; [exists n|exists k]; split; (lia || done).
        -- intros (k & Hk & ->).
           destruct (decide (k = n)) as [->|]; [by left|].
           right. exists k. split; [lia|done].
      * intros b Hb Hrep.
        destruct (decide (b = n)) as [->|]; [|apply (Hnorep b); [lia|done]].
        destruct Hrep as (a & Ha & E). apply Hin, Hseen. by exists a.
  - destruct IH as (q & -> & Hq & Hfirst). exists q. split_and!; [done|lia|done].
Qed.

Lemma first_repeat_unique ms h i p q :
  first_repeat ms h i p → first_repeat ms h i q → p = q.
Proof.
  intros [Rp Mp] [Rq Mq].
  destruct (Nat.lt_trichotomy p q) as [?|[?|?]]; [|done|].
  - by destruct (Mq p).
  - by destruct (Mp q).
Qed.

Lemma repeat_found ms h i b :
  repeat_at ms h i b →
  ∃ q, first_repeat ms h i q ∧ (q ≤ b)%nat
       ∧ ax_run ms h i (S b) = Found (Z.of_nat q).
Proof.
  intros Hrep. pose proof (ax_run_spec ms h i (S b)) as Hspec.
  destruct (ax_run ms h i (S b)) as [seen|p].
  - destruct Hspec as [_ Hnorep]. destruct (Hnorep b); [lia|done].
  - destruct Hspec as (q & -> & Hq & Hfirst). exists q.
    split_and!; [done|lia|done].
Qed.

Lemma first_repeat_found ms h i q k :
  first_repeat ms h i q → ax_run ms h i (S q + k) = Found (Z.of_nat q).
Proof.
  intros Hfirst. apply ax_run_stable.
  destruct (repeat_found ms h i q (proj1 Hfirst)) as (q' & Hfirst' & _ & ->).
  by rewrite (first_repeat_unique _ _ _ _ _ Hfirst Hfirst').
Qed.

(** Whenever each of the three axes shows, at some step, a state it has
    shown before, the loop of Part 2 leaves through [break] after finitely
    many passes, and the period it records for an axis is the first step
    at which that axis repeats. *)
Lemma part2_loop_terminates (ms : list loc) (h : heap) :
  (∀ i, (i < 3)%nat → ∃ b, repeat_at ms h i b) →
  ∃ p0 p1 p2,
    first_repeat ms h 0 p0 ∧ first_repeat ms h 1 p1 ∧ first_repeat ms h 2 p2
    ∧ ∀ fuel, (p0 `max` (p1 `max` p2) < fuel)%nat →
        part2_loop fuel (part2_init ms h)
        = Some (Ok [Some (Z.of_nat p0); Some (Z.of_nat p1);
                    Some (Z.of_nat p2)]).
Proof.
  intros Hrep.
  destruct (Hrep 0%nat) as [b0 R0]; [lia|].
  destruct (Hrep 1%nat) as [b1 R1]; [lia|].
  destruct (Hrep 2%nat) as [b2 R2]; [lia|].
  destruct (repeat_found _ _ _ _ R0) as (p0 & F0 & _).
  destruct (repeat_found _ _ _ _ R1) as (p1 & F1 & _).
  destruct (repeat_found _ _ _ _ R2) as (p2 & F2 & _).
  exists p0, p1, p2. split_and!; [done..|].
  intros fuel Hfuel.
  apply (loop_returns ms h _ _ _ (p0 `max` (p1 `max` p2)) 0);
    [done|apply part2_init_represents|..|done].
  - replace (1 + p0 `max` (p1 `max` p2))%nat
      with (S p0 + (p0 `max` (p1 `max` p2) - p0))%nat by lia.
    by apply first_repeat_found.
  - replace (1 + p0 `max` (p1 `max` p2))%nat
      with (S p1 + (p0 `max` (p1 `max` p2) - p1))%nat by lia.
    by apply first_repeat_found.
  - replace (1 + p0 `max` (p1 `max` p2))%nat
      with (S p2 + (p0 `max` (p1 `max` p2) - p2))%nat by lia.
    by apply first_repeat_found.
Qed.

Lemma part2_loop_terminates_witness :
  let ms := [0%nat] in
  let h := [Moon.new (Vector3.mk 1 0 0)] in
  (∀ i, (i < 3)%nat → ∃ b, repeat_at ms h i b)
  ∧ ∃ p0 p1 p2,
      first_repeat ms h 0 p0 ∧ first_repeat ms h 1 p1
      ∧ first_repeat ms h 2 p2
      ∧ ∀ fuel, (p0 `max` (p1 `max` p2) < fuel)%nat →
          part2_loop fuel (part2_init ms h)
          = Some (Ok [Some (Z.of_nat p0); Some (Z.of_nat p1);
                      Some (Z.of_nat p2)]).
Proof.
  intros ms h.
  assert (Hrep : ∀ i, (i < 3)%nat → ∃ b, repeat_at ms h i b).
  { intros i Hi. exists 1%nat, 0%nat. split; [lia|].
    destruct i as [|[|[|i]]]; [reflexivity..|lia]. }
  split; [exact Hrep|]. exact (part2_loop_terminates ms h Hrep).
Defined.

(** *** A Moon that drifts *)

Lemma drifting_traj n :
  traj [0%nat] drifting n
  = (System.mk [0%nat] (Z.of_nat n) false,
     [Moon.mk (Vector3.mk (Z.of_nat n) 0 0) (Vector3.mk 1 0 0)]).
Proof.
  induction n as [|n IH]; [done|].
  rewrite traj_succ, IH. unfold System.advance, System.apply_gravity.
  cbn. unfold System.tick, Moon.move, Vector3.add. cbn.
  repeat f_equal; lia.
Qed.

Lemma drifting_axis n :
  axis_at [0%nat] drifting 0 n = [(Z.of_nat n, 1)].
Proof. unfold axis_at. by rewrite drifting_traj. Qed.

Lemma drifting_searching n :
  ax_period (ax_run [0%nat] drifting 0 n) = None.
Proof.
  pose proof (ax_run_spec [0%nat] drifting 0 n) as Hspec.
  destruct (ax_run _ _ _ _) as [seen|p]; [done|].
  destruct Hspec as (q & _ & _ & (a & Ha & E) & _).
  rewrite !drifting_axis in E. injection E as E. lia.
Qed.

Lemma drifting_out_of_fuel fuel :
  part2_loop fuel (part2_init [0%nat] drifting) = None.
Proof.
  apply (loop_never_returns [0%nat] drifting fuel 0).
  - intros m. left. apply drifting_searching.
  - done.
  - apply part2_init_represents.
Qed.

(** A System whose velocities do not sum to zero need not repeat: for the
    single Moon at the origin with velocity (1, 0, 0) the x axis never
    shows a state twice, and no amount of fuel lets the loop of Part 2
    return.  [Moon.__init__] sets every velocity to zero and gravity keeps
    their sum, so the script itself never reaches such a System. *)
Lemma part2_loop_diverges :
  ¬ ∃ fuel r, part2_loop fuel (part2_init [0%nat] drifting) = Some r.
Proof. intros (fuel & r & E). by rewrite drifting_out_of_fuel in E. Qed.

(** *** A single Moon *)

Lemma single_traj p n :
  traj [0%nat] [Moon.new p] n
  = (System.mk [0%nat] (Z.of_nat n) false, [Moon.new p]).
Proof.
  induction n as [|n IH]; [done|].
  rewrite traj_succ, IH. unfold System.advance, System.apply_gravity.
  cbn. unfold System.tick, Moon.move. cbn. rewrite vadd_zero_r.
  repeat f_equal; lia.
Qed.

Lemma single_axis p i n :
  axis_at [0%nat] [Moon.new p] i n = axis_at [0%nat] [Moon.new p] i 0.
Proof. unfold axis_at. by rewrite !single_traj. Qed.

Lemma ax_run_repeat_1 ms h i :
  axis_at ms h i 1 = axis_at ms h i 0 →
  ax_run ms h i 1 = Searching ({[axis_at ms h i 0]} ∪ ∅)
  ∧ ax_run ms h i 2 = Found 1.
Proof.
  intros E. rewrite !ax_run_succ.
  change (ax_run ms h i 0) with (Searching ∅). simpl.
  rewrite bool_decide_eq_false_2 by set_solver. simpl.
  by rewrite bool_decide_eq_true_2 by set_solver.
Qed.

Lemma part1_run_traj ms h : part1_run ms h = traj ms h 1000.
Proof. unfold part1_run, traj. reflexivity. Qed.

Lemma single_after_part1 p :
  after_part1 [p] = ([0%nat], [Moon.new p], 0).
Proof.
  unfold after_part1. rewrite build_spec, part1_run_traj.
  cbn [length seq map]. rewrite single_traj. f_equal.
  unfold System.energy. cbn. unfold Moon.total_energy, Moon.kinetic_energy.
  cbn. lia.
Qed.

(** C7. With a single Moon (any position, the zero velocity it is built
    with) an advance changes nothing but the step counter; the pass at
    step 0 finds no period (with fuel for one pass the loop has not
    returned), the pass at step 1 finds the state of every axis in its
    seen-set, so the three periods are 1 and the combined period is 1. *)
Theorem single_moon_period (p : Vector3.t) (fuel : nat) :
  (∀ n, traj [0%nat] [Moon.new p] n
        = (System.mk [0%nat] (Z.of_nat n) false, [Moon.new p]))
  ∧ part2_start [p] = part2_init [0%nat] [Moon.new p]
  ∧ part2_loop 1 (part2_start [p]) = None
  ∧ part2_loop (S (S fuel)) (part2_start [p])
    = Some (Ok [Some 1; Some 1; Some 1])
  ∧ part2_answer [Some 1; Some 1; Some 1] = Ok 1
  ∧ script [p] (S (S fuel)) = Some (Ok (0, 1)).
Proof.
  assert (Hstart : part2_start [p] = part2_init [0%nat] [Moon.new p]).
  { unfold part2_start. by rewrite single_after_part1. }
  assert (Hrun : ∀ i, ax_run [0%nat] [Moon.new p] i 1
                      = Searching ({[axis_at [0%nat] [Moon.new p] i 0]} ∪ ∅)
                      ∧ ax_run [0%nat] [Moon.new p] i 2 = Found 1).
  { intros i. apply ax_run_repeat_1, single_axis. }
  assert (Hloop : part2_loop (S (S fuel)) (part2_start [p])
                  = Some (Ok [Some 1; Some 1; Some 1])).
  { rewrite Hstart.
    apply (loop_returns [0%nat] [Moon.new p] 1 1 1 1 0);
      [done|apply part2_init_represents|apply Hrun..|lia]. }
  split_and!; [apply single_traj|done| |done|done|].
  - rewrite Hstart. cbn [part2_loop].
    destruct (check_run [0%nat] [Moon.new p] 0 (part2_init _ _) eq_refl
                (part2_init_represents _ _)) as (st' & -> & T' & R').
    destruct R' as (Hp & _). rewrite Hp.
    rewrite !(proj1 (Hrun _)). cbn [ax_period all forallb truthy andb].
    by destruct (System.advance _).
  - unfold script. by rewrite single_after_part1, Hloop.
Qed.

(** ** Part 2 starts where Part 1 stopped *)

Lemma part2_start_spec vecs :
  part2_start vecs
  = part2_init (seq 0 (length vecs))
      (traj (seq 0 (length vecs)) (map Moon.new vecs) 1000).2.
Proof.
  unfold part2_start, after_part1. rewrite build_spec, part1_run_traj.
  by destruct (traj _ _ 1000).
Qed.

(** C1 fails on the code.  [System(moons)] on line 131 is given the list
    of Moon objects that Part 1 has advanced 1000 times, so the loop of
    Part 2 is entered in that state, with the step counter back at 0.  For
    the two Moons of the lines below, that state has both Moons at x = 4
    with velocities -1 and 1, while their initial state is x = 3 and x = 5
    at rest. *)
Theorem part2_start_not_initial :
  (∀ vecs,
     part2_start vecs
     = part2_init (seq 0 (length vecs))
         (traj (seq 0 (length vecs)) (map Moon.new vecs) 1000).2)
  ∧ let lines := ["<x=3, y=0, z=0>"; "<x=5, y=0, z=0>"] in
    let vecs := [Vector3.mk 3 0 0; Vector3.mk 5 0 0] in
    mapM parse_vec lines = Ok vecs
    ∧ System.state (System.new (build vecs).2) (build vecs).1
      = [[(3, 0); (5, 0)]; [(0, 0); (0, 0)]; [(0, 0); (0, 0)]]
    ∧ System.step (jupiter (part2_start vecs)) = 0
    ∧ System.state (jupiter (part2_start vecs)) (store (part2_start vecs))
      = [[(4, -1); (4, 1)]; [(0, 0); (0, 0)]; [(0, 0); (0, 0)]].
Proof.
  split; [apply part2_start_spec|].
  vm_compute. by split_and!.
Qed.

(** ** [lcm]: true division *)

Lemma round_half_even_exact L d :
  0 < d → round_half_even (L * d) d = L.
Proof.
  intros Hd. unfold round_half_even.
  rewrite Z.div_mul, Z.mod_mul by lia.
  replace (d <? 2 * 0) with false by (symmetry; apply Z.ltb_ge; lia).
  replace (d =? 2 * 0) with false by (symmetry; apply Z.eqb_neq; lia).
  done.
Qed.

(** An exact quotient below 2^53 comes out of [/] and [int] unchanged. *)
Lemma truediv_exact n d L :
  0 < d → 0 < L → L < 2 ^ 53 → n = L * d →
  (f ← py_truediv n d; Ok (py_int_of_float f)) = Ok L.
Proof.
  intros Hd HL Hsmall ->.
  assert (Hn : 0 < L * d) by nia.
  unfold py_truediv.
  replace (d =? 0) with false by (symmetry; apply Z.eqb_neq; lia).
  replace (L * d =? 0) with false by (symmetry; apply Z.eqb_neq; lia).
  rewrite (Z.abs_eq (L * d)), (Z.abs_eq d) by lia.
  rewrite (Z.sgn_pos (L * d)), (Z.sgn_pos d) by lia.
  set (e0 := Z.log2 (L * d) - Z.log2 d - 53).
  assert (He0 : e0 ≤ 0).
  { pose proof (Z.log2_mul_above L d). 
    assert (Z.log2 L < 53) by (by apply Z.log2_lt_pow2).
    unfold e0. lia. }
  set (e1 := if 2 ^ 53 <=? scaled_num (L * d) e0 / scaled_den d e0
             then e0 + 1 else e0).
  assert (He1 : e1 ≤ 0).
  { unfold e1. destruct (decide (e0 = 0)) as [->|]; [|case_match; lia].
    unfold scaled_num, scaled_den. simpl.
    rewrite Z.mul_1_r, Z.div_mul by lia.
    by replace (2 ^ 53 <=? L) with false by (symmetry; apply Z.leb_gt; lia). }
  set (e := e1 `max` (-1074)).
  assert (He : e ≤ 0) by lia.
  clearbody e. clear e0 He0 e1 He1.
  destruct (decide (e = 0)) as [->|Hne].
  - unfold scaled_num, scaled_den.
    change (0 <=? 0) with true. change (2 ^ 0) with 1.
    rewrite !Z.mul_1_r, round_half_even_exact by done.
    replace (2 ^ 1024 <=? L) with false
      by (symmetry; apply Z.leb_gt; lia).
    simpl. unfold py_int_of_float. simpl. f_equal. lia.
  - unfold scaled_num, scaled_den.
    replace (0 <=? e) with false by (symmetry; apply Z.leb_gt; lia).
    assert (Hpow : 0 < 2 ^ (- e)) by (apply Z.pow_pos_nonneg; lia).
    replace (L * d * 2 ^ (- e)) with (L * 2 ^ (- e) * d) by lia.
    rewrite round_half_even_exact by done.
    simpl. unfold py_int_of_float. simpl.
    replace (0 <=? e) with false by (symmetry; apply Z.leb_gt; lia).
    f_equal. rewrite Z.mul_1_l. apply Z.quot_mul. lia.
Qed.

Lemma lcm_mul_gcd a b :
  0 < a → 0 < b →
  0 < Z.gcd a b ∧ 0 < Z.lcm a b ∧ a * b = Z.lcm a b * Z.gcd a b.
Proof.
  intros Ha Hb.
  assert (Hg : 0 < Z.gcd a b).
  { pose proof (Z.gcd_nonneg a b).
    destruct (decide (Z.gcd a b = 0)) as [E|]; [|lia].
    apply Z.gcd_eq_0_l in E. lia. }
  destruct (Z.gcd_divide_r a b) as [k Hk].
  unfold Z.lcm. remember (Z.gcd a b) as g eqn:Eg. clear Eg.
  assert (0 < k) by nia.
  subst b. rewrite Z.div_mul by lia.
  rewrite Z.abs_eq by nia. split_and!; [done|nia|lia].
Qed.

(** Below 2^53 [lcm] is the least common multiple. *)
Lemma lcm_exact_below_2_53 a b :
  0 < a → 0 < b → Z.lcm a b < 2 ^ 53 → lcm a b = Ok (Z.lcm a b).
Proof.
  intros Ha Hb Hsmall.
  destruct (lcm_mul_gcd a b Ha Hb) as (Hg & HL & E).
  unfold lcm. by apply truediv_exact.
Qed.

(** C6 fails on the code.  [lcm] divides with [/], which yields a float:
    the least common multiple of 134217729 = 2^27 + 1 and
    134217727 = 2^27 - 1 is their product 2^54 - 1, and [lcm] returns
    2^54.  [lcms] of three numbers is [lcm(lcm(a, b), c)] and inherits the
    rounding. *)
Theorem lcm_rounds_above_2_53 :
  Z.lcm 134217729 134217727 = 18014398509481983
  ∧ lcm 134217729 134217727 = Ok 18014398509481984
  ∧ lcms [134217729; 134217727; 1] = Ok 18014398509481984
  ∧ ∀ a b c, lcms [a; b; c] = (ab ← lcm a b; lcm ab c).
Proof. split_and!; [by vm_compute..|done]. Qed.

(** ** Parsing *)

Lemma all_chars_impl (p q : ascii → bool) s :
  (∀ c, p c = true → q c = true) →
  all_chars p s = true → all_chars q s = true.
Proof.
  intros Hpq. induction s as [|c s IH]; simpl; [done|].
  rewrite !andb_true_iff. intros [? ?]. auto.
Qed.

Lemma append_cons c s1 s2 : String c s1 +:+ s2 = String c (s1 +:+ s2).
Proof. reflexivity. Qed.

Lemma all_chars_app p s1 s2 :
  all_chars p (s1 +:+ s2) = all_chars p s1 && all_chars p s2.
Proof.
  induction s1 as [|c s1 IH]; [done|].
  rewrite append_cons. cbn [all_chars]. by rewrite IH, andb_assoc.
Qed.

Lemma append_nil_r s : s +:+ "" = s.
Proof.
  induction s as [|c s IH]; [done|]. by rewrite append_cons, IH.
Qed.

Lemma prefix_other c t a s :
  not_char c a = true → String.prefix (String c t) (String a s) = false.
Proof.
  unfold not_char. intros Hne. simpl.
  destruct (ascii_dec c a) as [->|]; [|done].
  by rewrite Ascii.eqb_refl in Hne.
Qed.

Lemma prefix_same c s : String.prefix (String c "") (String c s) = true.
Proof. simpl. destruct (ascii_dec c c); [by destruct s|done]. Qed.

Lemma replace_from_cons old new a s :
  replace_from old new 0 (String a s)
  = if String.prefix old (String a s)
    then new +:+ replace_from old new (String.length old - 1) s
    else String a (replace_from old new 0 s).
Proof. reflexivity. Qed.

Lemma split_from_cons sep a s :
  split_from sep 0 (String a s)
  = if String.prefix sep (String a s)
    then EmptyString :: split_from sep (String.length sep - 1) s
    else match split_from sep 0 s with
         | piece :: pieces => String a piece :: pieces
         | [] => [String a EmptyString]
         end.
Proof. reflexivity. Qed.

Lemma not_char_ne c a : a ≠ c → not_char c a = true.
Proof.
  intros Hne. unfold not_char. apply negb_true_iff.
  by destruct (Ascii.eqb_spec a c).
Qed.

(** Deleting a character. *)
Lemma remove_app c s1 s2 :
  replace (String c "") "" (s1 +:+ s2)
  = replace (String c "") "" s1 +:+ replace (String c "") "" s2.
Proof.
  unfold replace. induction s1 as [|a s1 IH]; [done|].
  rewrite append_cons, !replace_from_cons.
  change (String.length (String c "") - 1)%nat with 0%nat.
  destruct (decide (a = c)) as [->|Hne].
  - rewrite !prefix_same, IH. done.
  - rewrite !prefix_other by (by apply not_char_ne).
    by rewrite append_cons, IH.
Qed.

Lemma replace_absent h t new s :
  all_chars (not_char h) s = true → replace (String h t) new s = s.
Proof.
  unfold replace. induction s as [|a s IH]; [done|].
  cbn [all_chars]. rewrite andb_true_iff. intros [Ha Hs].
  rewrite replace_from_cons, prefix_other by done. by rewrite IH.
Qed.

(** Splitting at a character. *)
Lemma split_piece c s rest :
  all_chars (not_char c) s = true →
  split_from (String c "") 0 (s +:+ String c rest)
  = s :: split_from (String c "") 0 rest.
Proof.
  induction s as [|a s IH]; cbn [all_chars].
  - intros _. change ("" +:+ String c rest) with (String c rest).
    by rewrite split_from_cons, prefix_same.
  - rewrite andb_true_iff. intros [Ha Hs].
    rewrite append_cons, split_from_cons, prefix_other by done.
    by rewrite IH.
Qed.

Lemma split_last c s :
  all_chars (not_char c) s = true → split_from (String c "") 0 s = [s].
Proof.
  induction s as [|a s IH]; cbn [all_chars]; [done|].
  rewrite andb_true_iff. intros [Ha Hs].
  rewrite split_from_cons, prefix_other by done. by rewrite IH.
Qed.

(** Literals. *)
Lemma is_digits_chars s : is_digits s = true → all_chars is_digit s = true.
Proof. by destruct s. Qed.

Lemma is_literal_chars i : is_literal i = true → all_chars lit_char i = true.
Proof.
  assert (Hd : ∀ s, is_digits s = true → all_chars lit_char s = true).
  { intros s Hs%is_digits_chars. revert Hs. apply all_chars_impl.
    intros c Hc. unfold lit_char. by rewrite Hc. }
  destruct i as [|c r]; [done|]. unfold is_literal.
  destruct (Ascii.eqb c "+" || Ascii.eqb c "-") eqn:E; [|apply Hd].
  intros Hr. cbn [all_chars]. rewrite (Hd r Hr), andb_true_r.
  unfold lit_char. apply orb_true_iff in E as [->| ->];
    by rewrite ?orb_true_r.
Qed.

Lemma lit_absent d i :
  lit_char d = false →
  is_literal i = true → all_chars (not_char d) i = true.
Proof.
  intros Hd Hi%is_literal_chars. revert Hi. apply all_chars_impl.
  intros c Hc. unfold not_char. apply negb_true_iff.
  destruct (Ascii.eqb_spec c d) as [->|]; [congruence|done].
Qed.

Lemma int_digits_value s : ∀ acc after,
  all_chars is_digit s = true →
  (s = EmptyString → after = true) →
  int_digits acc after s = Some (digits_value acc s).
Proof.
  induction s as [|c s IH]; intros acc after; simpl.
  - intros _ ->; done.
  - rewrite andb_true_iff. intros [-> Hs] _. by apply IH.
Qed.

Lemma digit_not_sign c :
  is_digit c = true → Ascii.eqb c "+" = false ∧ Ascii.eqb c "-" = false
                       ∧ is_space c = false.
Proof.
  intros Hc. split_and!.
  - destruct (Ascii.eqb_spec c "+") as [->|]; [done|done].
  - destruct (Ascii.eqb_spec c "-") as [->|]; [done|done].
  - unfold is_digit, is_space in *.
    destruct (nat_of_ascii c =? 32)%nat eqn:E1.
    { apply Nat.eqb_eq in E1. rewrite E1 in Hc. done. }
    apply andb_true_iff in Hc as [H1%Nat.leb_le H2%Nat.leb_le]. simpl.
    apply andb_false_iff. right. apply Nat.leb_gt. lia.
Qed.

Lemma sign_not_digit c :
  Ascii.eqb c "+" || Ascii.eqb c "-" = true → is_digit c = false.
Proof.
  intros [E|E]%orb_true_iff; apply Ascii.eqb_eq in E; by subst c.
Qed.

(** [int] on an optionally signed decimal integer: its value, unless it
    has more digits than the limit. *)
Lemma py_int_literal i :
  is_literal i = true →
  py_int i = if (int_max_str_digits <? count_digits i)%nat
             then Raise ValueError else Ok (literal_value i).
Proof.
  destruct i as [|c r]; [done|]. unfold is_literal, py_int, literal_value.
  destruct (Ascii.eqb c "+" || Ascii.eqb c "-") eqn:Hsign.
  - intros Hr. pose proof (sign_not_digit c Hsign) as Hnd.
    assert (Hsp : is_space c = false).
    { apply orb_true_iff in Hsign as [E|E]; apply Ascii.eqb_eq in E;
        by subst c. }
    cbn [skip_space count_digits]. rewrite Hsp, Hnd.
    assert (Hdig : int_digits 0 false r = Some (digits_value 0 r)).
    { apply int_digits_value; [by apply is_digits_chars|].
      intros ->. done. }
    destruct (Ascii.eqb_spec c "+") as [->|Hplus].
    + rewrite Hdig. case_match; [done|].
      change (Ascii.eqb "+" "-") with false. cbn iota. f_equal; lia.
    + destruct (Ascii.eqb_spec c "-") as [->|Hminus]; [|done].
      rewrite Hdig. case_match; [done|]. f_equal; lia.
  - apply orb_false_iff in Hsign as [E1 E2]. rewrite E1, E2.
    cbn [is_digits all_chars]. rewrite andb_true_iff. intros [Hc Hr].
    destruct (digit_not_sign c Hc) as (_ & _ & E3).
    cbn [skip_space]. rewrite E3, E1, E2.
    rewrite int_digits_value; [| |done].
    + case_match; [done|]. f_equal; lia.
    + cbn [all_chars]. by rewrite Hc, Hr.
Qed.

Lemma fields_line_of i1 i2 i3 :
  is_literal i1 = true → is_literal i2 = true → is_literal i3 = true →
  fields (line_of i1 i2 i3) = ["x=" +:+ i1; "y=" +:+ i2; "z=" +:+ i3].
Proof.
  intros H1 H2 H3. unfold fields, line_of.
  rewrite !remove_app.
  rewrite !(replace_absent _ _ _ i1), !(replace_absent _ _ _ i2),
    !(replace_absent _ _ _ i3) by (by apply lit_absent).
  change (replace " " "" (replace ">" "" (replace "<" "" "<x="))) with "x=".
  change (replace " " "" (replace ">" "" (replace "<" "" ", y="))) with ",y=".
  change (replace " " "" (replace ">" "" (replace "<" "" ", z="))) with ",z=".
  change (replace " " "" (replace ">" "" (replace "<" "" ">"))) with "".
  rewrite append_nil_r.
  change ("x=" +:+ i1 +:+ ",y=" +:+ i2 +:+ ",z=" +:+ i3)
    with (("x=" +:+ i1) +:+ String "," ("y=" +:+ i2 +:+ ",z=" +:+ i3)).
  rewrite split_piece.
  2:{ rewrite all_chars_app, (lit_absent "," i1) by done. done. }
  change ("y=" +:+ i2 +:+ ",z=" +:+ i3)
    with (("y=" +:+ i2) +:+ String "," ("z=" +:+ i3)).
  rewrite split_piece.
  2:{ rewrite all_chars_app, (lit_absent "," i2) by done. done. }
  rewrite split_last; [done|].
  rewrite all_chars_app, (lit_absent "," i3) by done. done.
Qed.

Lemma strip_label c i :
  lit_char c = false → is_literal i = true →
  replace (String c "=") "" (String c "=" +:+ i) = i.
Proof.
  intros Hc Hi.
  change (String c "=" +:+ i) with (String c (String "=" i)).
  unfold replace. rewrite replace_from_cons.
  assert (String.prefix (String c "=") (String c (String "=" i)) = true) as ->.
  { simpl. destruct (ascii_dec c c); [|done]. by destruct i. }
  change (replace_from (String c "=") "" (String.length (String c "=") - 1)
            (String "=" i))
    with (replace (String c "=") "" i).
  change ("" +:+ ?s) with s.
  apply replace_absent. by apply lit_absent.
Qed.

(** [parse_vec] on a line of the shape [<x=I, y=I, z=I>]. *)
Lemma parse_vec_line_of i1 i2 i3 :
  is_literal i1 = true → is_literal i2 = true → is_literal i3 = true →
  parse_vec (line_of i1 i2 i3)
  = if ((int_max_str_digits <? count_digits i1)
        || (int_max_str_digits <? count_digits i2)
        || (int_max_str_digits <? count_digits i3))%nat
    then Raise ValueError
    else Ok (Vector3.mk (literal_value i1) (literal_value i2)
               (literal_value i3)).
Proof.
  intros H1 H2 H3. unfold parse_vec.
  change (split "," ?s) with (Ok (split_from "," 0 s)).
  fold (fields (line_of i1 i2 i3)). rewrite fields_line_of by done.
  cbn [mbind result_bind index lookup list_lookup].
  rewrite !strip_label by done.
  rewrite !py_int_literal by done.
  destruct (int_max_str_digits <? count_digits i1)%nat; [done|].
  cbn [mbind result_bind orb].
  destruct (int_max_str_digits <? count_digits i2)%nat; [done|].
  cbn [mbind result_bind orb].
  by destruct (int_max_str_digits <? count_digits i3)%nat.
Qed.

Lemma line_of_ascii i1 i2 i3 :
  is_literal i1 = true → is_literal i2 = true → is_literal i3 = true →
  is_ascii (line_of i1 i2 i3) = true.
Proof.
  assert (Hlit : ∀ i, is_literal i = true → all_chars is_ascii_char i = true).
  { intros i Hi%is_literal_chars. revert Hi. apply all_chars_impl.
    intros c. unfold lit_char. rewrite !orb_true_iff.
    intros [[Hd| ->%Ascii.eqb_eq]| ->%Ascii.eqb_eq]; [|done..].
    unfold is_digit in Hd. apply andb_true_iff in Hd as [_ Hd%Nat.leb_le].
    unfold is_ascii_char. apply Nat.ltb_lt. lia. }
  intros H1 H2 H3. unfold is_ascii, line_of.
  rewrite !all_chars_app, (Hlit i1), (Hlit i2), (Hlit i3) by done. done.
Qed.

Lemma parse_vec_fields line :
  parse_vec line
  = (v0 ← index (fields line) 0; x ← py_int (replace "x=" "" v0);
     v1 ← index (fields line) 1; y ← py_int (replace "y=" "" v1);
     v2 ← index (fields line) 2; z ← py_int (replace "z=" "" v2);
     Ok (Vector3.mk x y z)).
Proof. reflexivity. Qed.

Lemma py_int_raises s e : py_int s = Raise e → e = ValueError.
Proof.
  unfold py_int.
  destruct (match skip_space s with
            | EmptyString => (1, EmptyString)
            | String c r =>
                if Ascii.eqb c "+" then (1, r)
                else if Ascii.eqb c "-" then (-1, r) else (1, String c r)
            end) as [sg body].
  destruct (int_digits 0 false body); [|by intros [= <-]].
  destruct (int_max_str_digits <? count_digits body)%nat; [|done].
  by intros [= <-].
Qed.

Ltac parse_cases :=
  cbn [index lookup list_lookup mbind result_bind];
  repeat match goal with
    | |- context [py_int ?s] =>
        let E := fresh "E" in
        destruct (py_int s) eqn:E; cbn [mbind result_bind]
    end.

(** What [parse_vec] accepts: three fields at least, the first three
    integers for [int] once the label is deleted. *)
Lemma parse_vec_ok line v :
  parse_vec line = Ok v ↔
  ∃ f0 f1 f2 rest,
    fields line = f0 :: f1 :: f2 :: rest
    ∧ py_int (replace "x=" "" f0) = Ok (Vector3.x v)
    ∧ py_int (replace "y=" "" f1) = Ok (Vector3.y v)
    ∧ py_int (replace "z=" "" f2) = Ok (Vector3.z v).
Proof.
  rewrite parse_vec_fields.
  destruct (fields line) as [|f0 [|f1 [|f2 rest]]]; split.
  1,3,5: by parse_cases.
  1,2,3: by intros (? & ? & ? & ? & ? & _).
  - parse_cases; try done. intros [= <-]. by exists f0, f1, f2, rest.
  - intros (? & ? & ? & ? & [= <- <- <- <-] & E0 & E1 & E2).
    cbn [index lookup list_lookup mbind result_bind].
    rewrite E0. cbn [mbind result_bind]. rewrite E1. cbn [mbind result_bind].
    rewrite E2. cbn [mbind result_bind]. by destruct v.
Qed.

Lemma parse_vec_raises line e :
  parse_vec line = Raise e → e = IndexError ∨ e = ValueError.
Proof.
  rewrite parse_vec_fields.
  destruct (fields line) as [|f0 [|f1 [|f2 rest]]]; parse_cases;
    intros [= <-]; try (by left);
    right; symmetry;
    match goal with E : py_int _ = Raise _ |- _ =>
      symmetry; exact (py_int_raises _ _ E) end.
Qed.

Lemma mapM_result_cons {A B} (f : A → result B) a l :
  mapM f (a :: l) = (b ← f a; k ← mapM f l; Ok (b :: k)).
Proof. reflexivity. Qed.

Lemma mapM_parse_raises lines line :
  line ∈ lines → is_ok (parse_vec line) = false →
  ∃ e, mapM parse_vec lines = Raise e.
Proof.
  induction lines as [|l lines IH]; [by intros ?%elem_of_nil|].
  rewrite mapM_result_cons.
  intros [->|Hin]%elem_of_cons Hbad.
  - destruct (parse_vec l); [done|]. by eexists.
  - destruct (parse_vec l); cbn [mbind result_bind]; [|by eexists].
    destruct (IH Hin Hbad) as [e ->]. by eexists.
Qed.

Lemma not_well_shaped_bare : ¬ well_shaped "1,2,3".
Proof. intros (i1 & i2 & i3 & _ & _ & _ & E). discriminate E. Qed.

(** C8, as stated, fails: the line [1,2,3] has not the shape
    [<x=I, y=I, z=I>], and [parse_vec] returns a Vector3 for it. *)
Lemma parse_vec_accepts_bare :
  ¬ well_shaped "1,2,3" ∧ parse_vec "1,2,3" = Ok (Vector3.mk 1 2 3).
Proof. split; [apply not_well_shaped_bare|reflexivity]. Qed.

(** C8, as amended, for lines of ASCII text.  [parse_vec] deletes every
    [<], [>] and space, splits at the commas, deletes the label from each
    of the first three fields and converts them with [int].  A line
    [<x=I, y=I, z=I>] whose components are optionally signed decimal
    integers is ASCII, and [parse_vec] returns the Vector3 of the three
    integers for it, unless a component has more digits than [int]
    converts (4300), which raises ValueError.  On any ASCII line it returns
    a Vector3 exactly when there are at least three fields and [int]
    accepts the first three; otherwise it raises IndexError or ValueError,
    and the script then stops with that exception before any Moon is
    built. *)
Theorem parse_vec_spec :
  (∀ i1 i2 i3,
     is_literal i1 = true → is_literal i2 = true → is_literal i3 = true →
     is_ascii (line_of i1 i2 i3) = true
     ∧ parse_vec (line_of i1 i2 i3)
       = if ((int_max_str_digits <? count_digits i1)
             || (int_max_str_digits <? count_digits i2)
             || (int_max_str_digits <? count_digits i3))%nat
         then Raise ValueError
         else Ok (Vector3.mk (literal_value i1) (literal_value i2)
                    (literal_value i3)))
  ∧ (∀ line v,
       is_ascii line = true →
       (parse_vec line = Ok v ↔
        ∃ f0 f1 f2 rest,
          fields line = f0 :: f1 :: f2 :: rest
          ∧ py_int (replace "x=" "" f0) = Ok (Vector3.x v)
          ∧ py_int (replace "y=" "" f1) = Ok (Vector3.y v)
          ∧ py_int (replace "z=" "" f2) = Ok (Vector3.z v)))
  ∧ (∀ line e,
       is_ascii line = true →
       parse_vec line = Raise e → e = IndexError ∨ e = ValueError)
  ∧ (∀ lines line fuel,
       Forall (fun l => is_ascii l = true) lines →
       line ∈ lines → is_ok (parse_vec line) = false →
       ∃ e, main lines fuel = Some (Raise e)
            ∧ (e = IndexError ∨ e = ValueError)).
Proof.
  split_and!.
  - intros i1 i2 i3 H1 H2 H3.
    split; [by apply line_of_ascii|by apply parse_vec_line_of].
  - intros line v _. apply parse_vec_ok.
  - intros line e _. apply parse_vec_raises.
  - intros lines line fuel _ Hin Hbad. unfold main.
    destruct (mapM_parse_raises lines line Hin Hbad) as [e E].
    rewrite E. exists e. split; [done|].
    clear Hin Hbad line. revert e E.
    induction lines as [|l lines IH]; intros e; [done|].
    rewrite mapM_result_cons.
    destruct (parse_vec l) eqn:El; cbn [mbind result_bind].
    + destruct (mapM parse_vec lines) eqn:Em; cbn [mbind result_bind];
        [done|]. intros [= <-]. by apply IH.
    + intros [= <-]. by apply (parse_vec_raises l).
Qed.

(** ** The axes are independent *)

Lemma sign1_opp c : Vector3.sign1 (- c) = - Vector3.sign1 c.
Proof.
  destruct (sign1_cases c) as [[? ->]|[[? ->]|[? ->]]];
    destruct (sign1_cases (- c)) as [[? ->]|[[? ->]|[? ->]]]; lia.
Qed.

Lemma axes_hom ax :
  ax ∈ axes →
  (∀ u v, ax (Vector3.add u v) = ax u + ax v)
  ∧ (∀ u v, ax (Vector3.sub u v) = ax u - ax v)
  ∧ (∀ v, ax (Vector3.sign v) = Vector3.sign1 (ax v))
  ∧ ax Vector3.zero = 0.
Proof.
  unfold axes. rewrite !elem_of_cons, elem_of_nil.
  intros [->|[->|[->|[]]]]; by split_and!.
Qed.

Lemma axes_vsum ax vs :
  ax ∈ axes → ax (vsum vs) = foldr (fun v acc => ax v + acc) 0 vs.
Proof.
  intros (Hadd & _ & _ & Hzero)%axes_hom.
  induction vs as [|v vs IH]; simpl; [done|]. by rewrite Hadd, IH.
Qed.

Lemma axis_force_app p l1 l2 :
  axis_force p (l1 ++ l2) = axis_force p l1 + axis_force p l2.
Proof.
  unfold axis_force. induction l1 as [|q l1 IH]; simpl; [done|].
  rewrite IH. lia.
Qed.

Lemma state_axes s h :
  System.state s h = map (fun ax => System.axis_state ax s h) axes.
Proof. done. Qed.

(** The new velocity of a Moon of the System, on one axis. *)
Lemma gravity_axis ax l (h : heap) a :
  ax ∈ axes → NoDup l → Forall (fun b => (b < length h)%nat) l → a ∈ l →
  ax (vel (foldl System.gravity_pair h (combinations l 2)) a)
  = ax (vel h a)
    + axis_force (ax (pos h a)) (map (fun b => ax (pos h b)) l).
Proof.
  intros Hax Hnd Hall (l1 & l2 & ->)%list_elem_of_split.
  rewrite foldl_gravity_vel by done.
  destruct (axes_hom ax Hax) as (Hadd & Hsub & Hsign & _).
  rewrite Hadd, Hsub, !axes_vsum by done.
  rewrite map_app, axis_force_app. cbn [map]. unfold axis_force at 2.
  cbn [foldr]. fold (axis_force (ax (pos h a)) (map (fun b => ax (pos h b)) l2)).
  rewrite Z.sub_diag. change (Vector3.sign1 0) with 0.
  assert (H2 : foldr (fun v acc => ax v + acc) 0 (map (pull h a) l2)
               = - axis_force (ax (pos h a)) (map (fun b => ax (pos h b)) l2)).
  { clear Hnd Hall. unfold axis_force. induction l2 as [|b l2 IH]; simpl; [done|].
    rewrite IH. unfold pull. rewrite Hsign, Hsub.
    pose proof (sign1_opp (ax (pos h b) - ax (pos h a))) as Ho.
    replace (- (ax (pos h b) - ax (pos h a)))
      with (ax (pos h a) - ax (pos h b)) in Ho by lia.
    lia. }
  assert (H1 : foldr (fun v acc => ax v + acc) 0
                 (map (fun b => pull h b a) l1)
               = axis_force (ax (pos h a)) (map (fun b => ax (pos h b)) l1)).
  { clear H2 Hnd Hall. unfold axis_force.
    induction l1 as [|b l1 IH]; simpl; [done|].
    rewrite IH. unfold pull. by rewrite Hsign, Hsub. }
  rewrite H1, H2. lia.
Qed.

Lemma valid_advance s h :
  valid s h → valid (System.advance (s, h)).1 (System.advance (s, h)).2.
Proof.
  intros [Hnd Hall]. split; [done|].
  rewrite advance_length. exact Hall.
Qed.

Lemma valid_traj ms h n :
  valid (System.new ms) h → valid (traj ms h n).1 (traj ms h n).2.
Proof.
  intros Hv. induction n as [|n IH]; [done|].
  rewrite traj_succ. destruct (traj ms h n) as [s' h'].
  by apply valid_advance.
Qed.

Lemma advance_axis_state ax s h :
  ax ∈ axes → valid s h →
  System.axis_state ax (System.advance (s, h)).1 (System.advance (s, h)).2
  = axis_step (System.axis_state ax s h).
Proof.
  intros Hax [Hnd Hall].
  unfold System.axis_state, axis_step. cbn [System.advance System.tick fst snd].
  cbn [System.moons]. rewrite !map_map. apply map_ext_elem. intros a Ha.
  assert (Hlt : (a < length (System.apply_gravity s h))%nat).
  { unfold System.apply_gravity. rewrite foldl_gravity_length.
    by apply (proj1 (Forall_forall _ _) Hall). }
  pose proof (foldl_move_inside (System.moons s) (System.apply_gravity s h)
                a Hnd Ha Hlt) as Hm.
  unfold loc in *. rewrite Hm. cbn [fst snd].
  unfold Moon.move. cbn [Moon.position Moon.velocity].
  destruct (axes_hom ax Hax) as (Hadd & _). rewrite Hadd.
  assert (Hp : Moon.position (System.apply_gravity s h !!! a)
               = Moon.position (h !!! a))
    by exact (foldl_gravity_pos _ h a).
  assert (Hv : ax (Moon.velocity (System.apply_gravity s h !!! a))
               = ax (Moon.velocity (h !!! a))
                 + axis_force (ax (Moon.position (h !!! a)))
                     (map (fun b => ax (Moon.position (h !!! b)))
                        (System.moons s)))
    by exact (gravity_axis ax _ h a Hax Hnd Hall Ha).
  by rewrite Hp, Hv.
Qed.

Lemma axis_back_step l : axis_back (axis_step l) = l.
Proof.
  unfold axis_back.
  assert (Hps : map (fun pv : Z * Z => pv.1 - pv.2) (axis_step l) = map fst l).
  { unfold axis_step. rewrite map_map. apply map_ext. intros [p v]. simpl. lia. }
  rewrite Hps. unfold axis_step. rewrite map_map.
  trans (map (fun pv : Z * Z => pv) l); [|apply map_id].
  apply map_ext. intros [p v]. cbn [fst snd].
  replace (p + (v + axis_force p (map fst l)) - (v + axis_force p (map fst l)))
    with p by lia.
  f_equal. lia.
Qed.

Lemma axis_step_inj l1 l2 : axis_step l1 = axis_step l2 → l1 = l2.
Proof.
  intros E. by rewrite <- (axis_back_step l1), <- (axis_back_step l2), E.
Qed.

Lemma state_lookup_axis i :
  (i < 3)%nat →
  ∃ ax, ax ∈ axes ∧ ∀ s h, System.state s h !!! i = System.axis_state ax s h.
Proof.
  intros Hi. destruct i as [|[|[|i]]]; [..|lia].
  - exists Vector3.x. split; [set_solver|done].
  - exists Vector3.y. split; [set_solver|done].
  - exists Vector3.z. split; [set_solver|done].
Qed.

Lemma axis_at_succ ms h i n :
  (i < 3)%nat → valid (System.new ms) h →
  axis_at ms h i (S n) = axis_step (axis_at ms h i n).
Proof.
  intros Hi Hv. destruct (state_lookup_axis i Hi) as (ax & Hax & Hst).
  unfold axis_at. rewrite !Hst, traj_succ.
  pose proof (valid_traj ms h n Hv) as Hvn.
  destruct (traj ms h n) as [s' h'].
  by apply advance_axis_state.
Qed.

Lemma advance_state s h :
  valid s h →
  System.state (System.advance (s, h)).1 (System.advance (s, h)).2
  = map axis_step (System.state s h).
Proof.
  intros Hv. rewrite !state_axes, map_map. apply map_ext_elem.
  intros ax Hax. by apply advance_axis_state.
Qed.

Lemma state_back s h :
  valid s h →
  map axis_back
    (System.state (System.advance (s, h)).1 (System.advance (s, h)).2)
  = System.state s h.
Proof.
  intros Hv. rewrite advance_state, map_map by done.
  trans (map (fun l : list (Z * Z) => l) (System.state s h)); [|apply map_id].
  apply map_ext. intros l. apply axis_back_step.
Qed.

(** X1. An advance acts on each axis by itself: the (position, velocity)
    pairs of an axis after [apply_gravity] and [tick] are a function of
    the pairs of that axis before, whatever the other two axes hold. *)
Theorem advance_axes_independent (s : System.t) (h : heap) :
  valid s h →
  System.state (System.advance (s, h)).1 (System.advance (s, h)).2
  = map axis_step (System.state s h).
Proof. apply advance_state. Qed.

Lemma advance_axes_independent_witness :
  let s := System.new [0; 1]%nat in
  let h := [Moon.new (Vector3.mk 3 0 7); Moon.new (Vector3.mk 5 0 (-2))] in
  valid s h
  ∧ System.state (System.advance (s, h)).1 (System.advance (s, h)).2
    = [[(4, 1); (4, -1)]; [(0, 0); (0, 0)]; [(6, -1); (-1, 1)]].
Proof.
  intros s h.
  assert (Hv : valid s h) by (apply (bool_decide_unpack _); vm_compute; exact I).
  split; [exact Hv|].
  rewrite (advance_axes_independent s h Hv). reflexivity.
Defined.

(** X2. An advance can be undone: moving every Moon back by its velocity
    and taking the pulls off again gives the state before, so two
    different states of a System never advance to the same state. *)
Theorem advance_reversible (s : System.t) (h : heap) :
  valid s h →
  map axis_back
    (System.state (System.advance (s, h)).1 (System.advance (s, h)).2)
  = System.state s h
  ∧ ∀ h', valid s h' →
      System.state (System.advance (s, h')).1 (System.advance (s, h')).2
      = System.state (System.advance (s, h)).1 (System.advance (s, h)).2 →
      System.state s h' = System.state s h.
Proof.
  intros Hv. split; [by apply state_back|].
  intros h' Hv' E.
  by rewrite <- (state_back s h' Hv'), <- (state_back s h Hv), E.
Qed.

Lemma advance_reversible_witness :
  let s := System.new [0; 1]%nat in
  let h := [Moon.mk (Vector3.mk 3 0 7) (Vector3.mk 1 1 0);
            Moon.mk (Vector3.mk 5 0 (-2)) (Vector3.mk 0 (-4) 0)] in
  valid s h
  ∧ map axis_back [[(5, 2); (4, -1)]; [(1, 1); (-4, -4)]; [(6, -1); (-1, 1)]]
    = System.state s h.
Proof.
  intros s h.
  assert (Hv : valid s h) by (apply (bool_decide_unpack _); vm_compute; exact I).
  split; [exact Hv|].
  exact (proj1 (advance_reversible s h Hv)).
Defined.

(** ** Periods *)

Lemma axis_at_pred_eq ms h i a b :
  (i < 3)%nat → valid (System.new ms) h →
  axis_at ms h i (S a) = axis_at ms h i (S b) →
  axis_at ms h i a = axis_at ms h i b.
Proof.
  intros Hi Hv. rewrite !axis_at_succ by done. apply axis_step_inj.
Qed.

Lemma axis_at_cancel ms h i k a b :
  (i < 3)%nat → valid (System.new ms) h →
  axis_at ms h i (k + a) = axis_at ms h i (k + b) →
  axis_at ms h i a = axis_at ms h i b.
Proof.
  intros Hi Hv. induction k as [|k IH]; [done|].
  intros E. by apply IH, axis_at_pred_eq.
Qed.

Lemma axis_at_shift_eq ms h i k a b :
  (i < 3)%nat → valid (System.new ms) h →
  axis_at ms h i a = axis_at ms h i b →
  axis_at ms h i (k + a) = axis_at ms h i (k + b).
Proof.
  intros Hi Hv E. induction k as [|k IH]; [done|].
  cbn [Nat.add]. by rewrite !axis_at_succ, IH.
Qed.

(** The first repeat of an axis is its first return to the initial
    state. *)
Lemma first_repeat_return ms h i p :
  (i < 3)%nat → valid (System.new ms) h →
  first_repeat ms h i p →
  (0 < p)%nat ∧ axis_at ms h i p = axis_at ms h i 0
  ∧ ∀ q, (0 < q < p)%nat → axis_at ms h i q ≠ axis_at ms h i 0.
Proof.
  intros Hi Hv [(a & Ha & E) Hmin]. split_and!; [lia| |].
  - destruct a as [|a]; [done|]. destruct p as [|p]; [lia|].
    destruct (Hmin p); [lia|]. exists a. split; [lia|].
    by apply axis_at_pred_eq.
  - intros q Hq Eq. destruct (Hmin q); [lia|]. exists 0%nat.
    split; [lia|done].
Qed.

Lemma return_first_repeat ms h i p :
  (i < 3)%nat → valid (System.new ms) h →
  (0 < p)%nat → axis_at ms h i p = axis_at ms h i 0 →
  (∀ q, (0 < q < p)%nat → axis_at ms h i q ≠ axis_at ms h i 0) →
  first_repeat ms h i p.
Proof.
  intros Hi Hv Hp E Hmin. split.
  - exists 0%nat. by split.
  - intros b Hb (a & Ha & Eab).
    apply (Hmin (b - a)%nat); [lia|].
    apply (axis_at_cancel ms h i a); [done..|].
    rewrite Nat.add_0_r. by replace (a + (b - a))%nat with b by lia.
Qed.

(** X3. The period that Part 2 records for an axis is a true period of
    that axis: it is the least positive number of advances after which
    the axis is back in the state the loop started from. *)
Theorem period_is_first_return (ms : list loc) (h : heap) (fuel : nat)
    (ps : list (option Z)) :
  valid (System.new ms) h →
  part2_loop fuel (part2_init ms h) = Some (Ok ps) →
  ∃ p0 p1 p2 : nat,
    ps = [Some (Z.of_nat p0); Some (Z.of_nat p1); Some (Z.of_nat p2)]
    ∧ ∀ i p, [p0; p1; p2] !! i = Some p →
        (0 < p)%nat ∧ axis_at ms h i p = axis_at ms h i 0
        ∧ ∀ q, (0 < q < p)%nat → axis_at ms h i q ≠ axis_at ms h i 0.
Proof.
  intros Hv E.
  destruct (loop_result ms h fuel 0 (part2_init ms h) _ eq_refl
              (part2_init_represents ms h) E)
    as (m & z0 & z1 & z2 & [= ->] & F0 & F1 & F2).
  pose proof (ax_run_spec ms h 0 m) as S0. rewrite F0 in S0.
  pose proof (ax_run_spec ms h 1 m) as S1. rewrite F1 in S1.
  pose proof (ax_run_spec ms h 2 m) as S2. rewrite F2 in S2.
  destruct S0 as (p0 & -> & _ & R0), S1 as (p1 & -> & _ & R1),
    S2 as (p2 & -> & _ & R2).
  exists p0, p1, p2. split; [done|].
  intros [|[|[|i]]] p Hl; simpl in Hl; [..|done];
    injection Hl as <-; apply first_repeat_return; (lia || done).
Qed.

Lemma period_is_first_return_witness :
  let ms := [0; 1]%nat in
  let h := [Moon.new (Vector3.mk 3 0 0); Moon.new (Vector3.mk 5 0 0)] in
  valid (System.new ms) h
  ∧ part2_loop 7 (part2_init ms h) = Some (Ok [Some 6; Some 1; Some 1])
  ∧ axis_at ms h 0 6 = axis_at ms h 0 0.
Proof.
  intros ms h.
  assert (Hv : valid (System.new ms) h)
    by (apply (bool_decide_unpack _); vm_compute; exact I).
  assert (E : part2_loop 7 (part2_init ms h)
              = Some (Ok [Some 6; Some 1; Some 1])) by (vm_compute; reflexivity).
  split_and!; [exact Hv|exact E|].
  destruct (period_is_first_return ms h 7 _ Hv E)
    as (p0 & p1 & p2 & Eps & Hret).
  injection Eps as E0 _ _.
  assert (p0 = 6%nat) as -> by lia.
  exact (proj1 (proj2 (Hret 0%nat 6%nat eq_refl))).
Defined.

Lemma advance_heap_moons s s' (h : heap) :
  System.moons s = System.moons s' →
  (System.advance (s, h)).2 = (System.advance (s', h)).2.
Proof.
  intros E. cbn [System.advance System.tick snd].
  unfold System.apply_gravity. by rewrite E.
Qed.

Lemma state_moons s s' (h : heap) :
  System.moons s = System.moons s' → System.state s h = System.state s' h.
Proof. intros E. unfold System.state, System.axis_state. by rewrite E. Qed.

Lemma traj_heap_shift ms h k n :
  (traj ms (traj ms h k).2 n).2 = (traj ms h (k + n)).2.
Proof.
  induction n as [|n IH]; [by rewrite Nat.add_0_r|].
  rewrite Nat.add_succ_r, !traj_succ.
  pose proof (traj_moons ms (traj ms h k).2 n) as M1.
  pose proof (traj_moons ms h (k + n)) as M2.
  destruct (traj ms (traj ms h k).2 n) as [s1 g1].
  destruct (traj ms h (k + n)) as [s2 g2]. simpl in IH, M1, M2. subst g2.
  apply advance_heap_moons. congruence.
Qed.

Lemma axis_at_shift ms h i k n :
  axis_at ms (traj ms h k).2 i n = axis_at ms h i (k + n).
Proof.
  unfold axis_at. rewrite traj_heap_shift. f_equal.
  apply state_moons. by rewrite !traj_moons.
Qed.

Lemma valid_traj_new ms h k :
  valid (System.new ms) h → valid (System.new ms) (traj ms h k).2.
Proof.
  intros Hv. pose proof (valid_traj ms h k Hv) as [Hnd Hall].
  rewrite traj_moons in Hnd, Hall. by split.
Qed.

(** Starting later on the trajectory does not change the first repeat. *)
Lemma first_repeat_shift ms h i p k :
  (i < 3)%nat → valid (System.new ms) h →
  first_repeat ms h i p → first_repeat ms (traj ms h k).2 i p.
Proof.
  intros Hi Hv (Hp & E & Hmin)%first_repeat_return; [|done..].
  apply return_first_repeat; [done|by apply valid_traj_new|done|..].
  - rewrite !axis_at_shift. by apply axis_at_shift_eq.
  - intros q Hq. rewrite !axis_at_shift. intros Eq.
    apply (Hmin q Hq). by apply (axis_at_cancel ms h i k).
Qed.

Lemma loop_returns_first_repeats ms h p0 p1 p2 fuel :
  first_repeat ms h 0 p0 → first_repeat ms h 1 p1 → first_repeat ms h 2 p2 →
  (p0 `max` (p1 `max` p2) < fuel)%nat →
  part2_loop fuel (part2_init ms h)
  = Some (Ok [Some (Z.of_nat p0); Some (Z.of_nat p1); Some (Z.of_nat p2)]).
Proof.
  intros F0 F1 F2 Hfuel.
  apply (loop_returns ms h _ _ _ (p0 `max` (p1 `max` p2)) 0);
    [done|apply part2_init_represents|..|done].
  - replace (1 + p0 `max` (p1 `max` p2))%nat
      with (S p0 + (p0 `max` (p1 `max` p2) - p0))%nat by lia.
    by apply first_repeat_found.
  - replace (1 + p0 `max` (p1 `max` p2))%nat
      with (S p1 + (p0 `max` (p1 `max` p2) - p1))%nat by lia.
    by apply first_repeat_found.
  - replace (1 + p0 `max` (p1 `max` p2))%nat
      with (S p2 + (p0 `max` (p1 `max` p2) - p2))%nat by lia.
    by apply first_repeat_found.
Qed.

Lemma valid_build vecs :
  valid (System.new (seq 0 (length vecs))) (map Moon.new vecs).
Proof.
  split; cbn [System.new System.moons]; [apply NoDup_seq|].
  apply Forall_forall. intros a Ha%elem_of_seq. rewrite length_map. lia.
Qed.

(** X4. Part 2 runs on the Moons as Part 1 left them, and still finds
    the periods of the initial configuration: whenever every axis of the
    initial configuration repeats at some step, the loop returns, for each
    axis, the first step at which the initial configuration repeats. *)
Theorem part2_periods_of_initial (vecs : list Vector3.t) :
  let ms := seq 0 (length vecs) in
  let h0 := map Moon.new vecs in
  (∀ i, (i < 3)%nat → ∃ b, repeat_at ms h0 i b) →
  ∃ p0 p1 p2,
    first_repeat ms h0 0 p0 ∧ first_repeat ms h0 1 p1
    ∧ first_repeat ms h0 2 p2
    ∧ ∀ fuel, (p0 `max` (p1 `max` p2) < fuel)%nat →
        part2_loop fuel (part2_start vecs)
        = Some (Ok [Some (Z.of_nat p0); Some (Z.of_nat p1);
                    Some (Z.of_nat p2)]).
Proof.
  intros ms h0 Hrep.
  destruct (Hrep 0%nat) as [b0 R0]; [lia|].
  destruct (Hrep 1%nat) as [b1 R1]; [lia|].
  destruct (Hrep 2%nat) as [b2 R2]; [lia|].
  destruct (repeat_found _ _ _ _ R0) as (p0 & F0 & _).
  destruct (repeat_found _ _ _ _ R1) as (p1 & F1 & _).
  destruct (repeat_found _ _ _ _ R2) as (p2 & F2 & _).
  exists p0, p1, p2. split_and!; [done..|].
  intros fuel Hfuel. rewrite part2_start_spec. fold ms. fold h0.
  pose proof (valid_build vecs) as Hv. fold ms in Hv. fold h0 in Hv.
  apply loop_returns_first_repeats; [..|done];
    apply first_repeat_shift; (lia || done).
Qed.

Lemma part2_periods_of_initial_witness :
  let vecs := [Vector3.mk 3 0 0; Vector3.mk 5 0 0] in
  let ms := seq 0 (length vecs) in
  let h0 := map Moon.new vecs in
  (∀ i, (i < 3)%nat → ∃ b, repeat_at ms h0 i b)
  ∧ ∃ p0 p1 p2,
      first_repeat ms h0 0 p0 ∧ first_repeat ms h0 1 p1
      ∧ first_repeat ms h0 2 p2
      ∧ ∀ fuel, (p0 `max` (p1 `max` p2) < fuel)%nat →
          part2_loop fuel (part2_start vecs)
          = Some (Ok [Some (Z.of_nat p0); Some (Z.of_nat p1);
                      Some (Z.of_nat p2)]).
Proof.
  intros vecs ms h0.
  assert (Hrep : ∀ i, (i < 3)%nat → ∃ b, repeat_at ms h0 i b).
  { intros i Hi. destruct i as [|[|[|i]]]; [..|lia].
    - exists 6%nat, 0%nat. split; [lia|]. vm_compute. reflexivity.
    - exists 1%nat, 0%nat. split; [lia|]. vm_compute. reflexivity.
    - exists 1%nat, 0%nat. split; [lia|]. vm_compute. reflexivity. }
  split; [exact Hrep|]. exact (part2_periods_of_initial vecs Hrep).
Defined.

(** ** More on [lcm] and [lcms] *)

Lemma lcms_three a b c : lcms [a; b; c] = (ab ← lcm a b; lcm ab c).
Proof. done. Qed.

Lemma lcm_le_lcm a b c :
  0 < a → 0 < b → 0 < c → Z.lcm a b ≤ Z.lcm (Z.lcm a b) c.
Proof.
  intros Ha Hb Hc.
  destruct (lcm_mul_gcd a b Ha Hb) as (_ & Hab & _).
  destruct (lcm_mul_gcd (Z.lcm a b) c Hab Hc) as (_ & Habc & _).
  apply Z.divide_pos_le; [done|]. apply Z.divide_lcm_l.
Qed.

(** X5. As long as the least common multiple stays below 2^53, the
    float in [lcm] is exact: [lcm] returns the least common multiple of
    two positive integers, and [lcms] that of three. *)
Theorem lcms_exact_below_2_53 (a b c : Z) :
  0 < a → 0 < b → 0 < c → Z.lcm (Z.lcm a b) c < 2 ^ 53 →
  lcm a b = Ok (Z.lcm a b)
  ∧ lcms [a; b; c] = Ok (Z.lcm (Z.lcm a b) c).
Proof.
  intros Ha Hb Hc Hsmall.
  pose proof (lcm_le_lcm a b c Ha Hb Hc) as Hle.
  destruct (lcm_mul_gcd a b Ha Hb) as (Hg & Hab & Eab).
  destruct (lcm_mul_gcd (Z.lcm a b) c Hab Hc) as (Hg' & Habc & Eabc).
  assert (E1 : lcm a b = Ok (Z.lcm a b)).
  { unfold lcm. apply truediv_exact; [done..|lia|done]. }
  split; [done|].
  rewrite lcms_three, E1. cbn [mbind result_bind].
  unfold lcm. by apply truediv_exact.
Qed.

Lemma lcms_exact_below_2_53_witness :
  (0 < 18 ∧ 0 < 28 ∧ 0 < 44 ∧ Z.lcm (Z.lcm 18 28) 44 < 2 ^ 53)
  ∧ lcms [18; 28; 44] = Ok 2772.
Proof.
  assert (H1 : 0 < 18) by lia. assert (H2 : 0 < 28) by lia.
  assert (H3 : 0 < 44) by lia.
  assert (H4 : Z.lcm (Z.lcm 18 28) 44 < 2 ^ 53) by (vm_compute; reflexivity).
  split; [by split_and!|].
  exact (proj2 (lcms_exact_below_2_53 18 28 44 H1 H2 H3 H4)).
Defined.

Lemma truediv_zero_division n d e :
  py_truediv n d = Raise e → e = ZeroDivisionError → d = 0.
Proof.
  unfold py_truediv. destruct (Z.eqb_spec d 0) as [->|Hd]; [done|].
  destruct (n =? 0); [done|]. case_match; [|done].
  by intros [= <-].
Qed.

(** X6. [lcm] raises ZeroDivisionError exactly when both arguments are
    0; with one argument 0 and the other not, it returns 0. *)
Theorem lcm_zero_division (a b : Z) :
  (lcm a b = Raise ZeroDivisionError ↔ a = 0 ∧ b = 0)
  ∧ (a ≠ 0 → lcm a 0 = Ok 0 ∧ lcm 0 a = Ok 0).
Proof.
  split.
  - split.
    + unfold lcm. destruct (py_truediv (a * b) (Z.gcd a b)) as [f|e] eqn:E;
        [done|].
      cbn [mbind result_bind]. intros [= ->].
      apply truediv_zero_division in E; [|done].
      by apply Z.gcd_eq_0 in E.
    + intros [-> ->]. reflexivity.
  - intros Ha. unfold lcm, py_truediv. split.
    + rewrite Z.mul_0_r, Z.gcd_0_r.
      by replace (Z.abs a =? 0) with false
        by (symmetry; apply Z.eqb_neq; lia).
    + rewrite Z.mul_0_l, Z.gcd_0_l.
      by replace (Z.abs a =? 0) with false
        by (symmetry; apply Z.eqb_neq; lia).
Qed.

Lemma lcms_cons a b rest :
  0 < a → 0 < b → Z.lcm a b < 2 ^ 53 →
  lcms (a :: b :: rest) = lcms (Z.lcm a b :: rest).
Proof.
  intros Ha Hb Hsmall. unfold lcms, reduce. cbn [foldl mbind result_bind].
  by rewrite (lcm_exact_below_2_53 a b Ha Hb Hsmall).
Qed.

Lemma foldl_lcm_pos n ns :
  0 < n → Forall (fun k => 0 < k) ns →
  0 < foldl Z.lcm n ns ∧ n ≤ foldl Z.lcm n ns.
Proof.
  intros Hn Hns. revert n Hn.
  induction Hns as [|b ns Hb _ IH]; intros n Hn; [simpl; lia|].
  destruct (lcm_mul_gcd n b Hn Hb) as (_ & Hnb & _).
  destruct (IH (Z.lcm n b) Hnb) as [Hpos Hle].
  cbn [foldl]. split; [done|].
  assert (n ≤ Z.lcm n b)
    by (apply Z.divide_pos_le; [done|apply Z.divide_lcm_l]).
  lia.
Qed.

Lemma foldl_lcm_divides n ns k :
  k ∈ n :: ns → (k | foldl Z.lcm n ns).
Proof.
  revert n k. induction ns as [|b ns IH]; intros n k Hk.
  { apply list_elem_of_singleton in Hk as ->. apply Z.divide_refl. }
  cbn [foldl].
  assert (Hhead : (Z.lcm n b | foldl Z.lcm (Z.lcm n b) ns))
    by (apply IH, list_elem_of_here).
  apply elem_of_cons in Hk as [->|Hk].
  { etrans; [apply Z.divide_lcm_l|exact Hhead]. }
  apply elem_of_cons in Hk as [->|Hk].
  { etrans; [apply Z.divide_lcm_r|exact Hhead]. }
  apply IH. by apply list_elem_of_further.
Qed.

Lemma foldl_lcm_least n ns m :
  (∀ k, k ∈ n :: ns → (k | m)) → (foldl Z.lcm n ns | m).
Proof.
  revert n. induction ns as [|b ns IH]; intros n Hm.
  { apply Hm, list_elem_of_here. }
  cbn [foldl]. apply IH. intros k Hk.
  apply elem_of_cons in Hk as [->|Hk].
  - apply Z.lcm_least; apply Hm; [apply list_elem_of_here|].
    apply list_elem_of_further, list_elem_of_here.
  - apply Hm. by do 2 apply list_elem_of_further.
Qed.

(** X7. For a non-empty list of positive integers, of any length, whose
    least common multiple is below 2^53, [lcms] returns that least common
    multiple: a positive integer that every number of the list divides
    and that divides every common multiple of the list. *)
Theorem lcms_least_common_multiple (n : Z) (ns : list Z) :
  0 < n → Forall (fun k => 0 < k) ns → foldl Z.lcm n ns < 2 ^ 53 →
  ∃ l, lcms (n :: ns) = Ok l
       ∧ 0 < l
       ∧ (∀ k, k ∈ n :: ns → (k | l))
       ∧ (∀ m, (∀ k, k ∈ n :: ns → (k | m)) → (l | m)).
Proof.
  intros Hn Hns Hsmall. exists (foldl Z.lcm n ns).
  split_and!.
  - revert n Hn Hsmall.
    induction Hns as [|b ns Hb Hns IH]; intros n Hn Hsmall; [done|].
    cbn [foldl] in *.
    destruct (lcm_mul_gcd n b Hn Hb) as (_ & Hnb & _).
    destruct (foldl_lcm_pos (Z.lcm n b) ns Hnb Hns) as [_ Hle].
    rewrite lcms_cons by (done || lia). by apply IH.
  - by apply foldl_lcm_pos.
  - intros k. apply foldl_lcm_divides.
  - intros m. apply foldl_lcm_least.
Qed.

Lemma lcms_least_common_multiple_witness :
  (0 < 18 ∧ Forall (fun k => 0 < k) [28; 44; 10]
   ∧ foldl Z.lcm 18 [28; 44; 10] < 2 ^ 53)
  ∧ ∃ l, lcms [18; 28; 44; 10] = Ok l
         ∧ 0 < l
         ∧ (∀ k, k ∈ [18; 28; 44; 10] → (k | l))
         ∧ (∀ m, (∀ k, k ∈ [18; 28; 44; 10] → (k | m)) → (l | m)).
Proof.
  assert (H1 : 0 < 18) by lia.
  assert (H2 : Forall (fun k => 0 < k) [28; 44; 10])
    by (repeat constructor).
  assert (H3 : foldl Z.lcm 18 [28; 44; 10] < 2 ^ 53)
    by (vm_compute; reflexivity).
  split; [by split_and!|].
  exact (lcms_least_common_multiple 18 [28; 44; 10] H1 H2 H3).
Defined.

(** ** [__eq__] *)

Lemma vector3_eqb_eq u v : Vector3.eqb u v = true ↔ u = v.
Proof.
  unfold Vector3.eqb. rewrite !andb_true_iff, !Z.eqb_eq. split.
  - intros [[? ?] ?]. by apply vec_eq.
  - by intros ->.
Qed.

Lemma moon_eqb_eq m n : Moon.eqb m n = true ↔ m = n.
Proof.
  unfold Moon.eqb. rewrite andb_true_iff, !vector3_eqb_eq. split.
  - destruct m, n; simpl. by intros [-> ->].
  - by intros ->.
Qed.

Lemma forallb_zip {A} (P : A → A → bool) (l1 l2 : list A) :
  forallb (fun ab => P ab.1 ab.2) (zip l1 l2) = true ↔
  ∀ i a b, l1 !! i = Some a → l2 !! i = Some b → P a b = true.
Proof.
  revert l2. induction l1 as [|x l1 IH]; intros [|y l2]; simpl;
    try (split; [by intros _ [|?] ? ?|done]).
  rewrite andb_true_iff, IH. split.
  - intros [Hxy Hrest] [|i] a b; simpl; [by intros [= <-] [= <-]|].
    apply Hrest.
  - intros Hall. split; [by apply (Hall 0%nat)|].
    intros i a b. apply (Hall (S i)).
Qed.

(** X8. [System.__eq__] compares the Moons of the two lists position by
    position, as far as the shorter list goes, and looks at nothing else:
    two Systems are equal exactly when the Moons at their common positions
    have equal position and velocity.  So the step counters play no part,
    a System without Moons equals every System, and the comparison is
    symmetric but not transitive. *)
Theorem system_eq_common_prefix (s1 s2 : System.t) (h : heap) :
  (System.eqb s1 s2 h = true ↔
   ∀ i a b, System.moons s1 !! i = Some a → System.moons s2 !! i = Some b →
            h !!! a = h !!! b)
  ∧ (System.moons s1 = [] → System.eqb s1 s2 h = true)
  ∧ System.eqb s1 s2 h = System.eqb s2 s1 h
  ∧ (let h' := [Moon.new (Vector3.mk 1 0 0); Moon.new (Vector3.mk 2 0 0)] in
     System.eqb (System.new [0%nat]) (System.new []) h' = true
     ∧ System.eqb (System.new []) (System.new [1%nat]) h' = true
     ∧ System.eqb (System.new [0%nat]) (System.new [1%nat]) h' = false).
Proof.
  assert (Hiff : ∀ t1 t2,
            System.eqb t1 t2 h = true ↔
            ∀ i a b, System.moons t1 !! i = Some a →
                     System.moons t2 !! i = Some b → h !!! a = h !!! b).
  { intros t1 t2. unfold System.eqb.
    rewrite (forallb_zip (fun a b => Moon.eqb (h !!! a) (h !!! b))).
    by setoid_rewrite moon_eqb_eq. }
  split_and!.
  - apply Hiff.
  - intros E. apply Hiff. rewrite E. by intros i a b ?.
  - apply eq_true_iff_eq. rewrite !Hiff. split; intros Hall i a b Ha Hb;
      symmetry; by apply (Hall i).
  - by vm_compute.
Qed.

(** ** [__str__] and [parse_vec] *)

Example py_str_int_ex :
  map py_str_int [0; 7; 10; 1234; -5; -1000; 99; 100]
  = map Ok ["0"; "7"; "10"; "1234"; "-5"; "-1000"; "99"; "100"].
Proof. reflexivity. Qed.

Lemma digit_char_spec d :
  0 ≤ d < 10 →
  is_digit (digit_char d) = true ∧ digit_value (digit_char d) = d.
Proof.
  intros Hd.
  assert (d = 0 ∨ d = 1 ∨ d = 2 ∨ d = 3 ∨ d = 4 ∨ d = 5 ∨ d = 6 ∨ d = 7
          ∨ d = 8 ∨ d = 9) as Hcases by lia.
  repeat destruct Hcases as [->|Hcases]; try subst d; by split.
Qed.

Lemma digits_value_weight s : ∀ acc,
  digits_value acc s
  = acc * 10 ^ Z.of_nat (String.length s) + digits_value 0 s.
Proof.
  induction s as [|c s IH]; intros acc.
  { simpl. lia. }
  cbn [digits_value String.length]. rewrite (IH (10 * acc + _)), (IH (10 * 0 + _)).
  rewrite Nat2Z.inj_succ, Z.pow_succ_r by lia. lia.
Qed.

(** What [str_digits] writes in front of [acc]: [k] digits, the decimal
    notation of [n] without leading zeros. *)
Lemma str_digits_spec fuel : ∀ n acc,
  0 ≤ n < 10 ^ Z.of_nat fuel → (0 < fuel)%nat →
  all_chars is_digit acc = true →
  all_chars is_digit (str_digits fuel n acc) = true
  ∧ digits_value 0 (str_digits fuel n acc)
    = n * 10 ^ Z.of_nat (String.length acc) + digits_value 0 acc
  ∧ ∃ k, (1 ≤ k)%nat
      ∧ String.length (str_digits fuel n acc) = (k + String.length acc)%nat
      ∧ n < 10 ^ Z.of_nat k
      ∧ (k = 1%nat ∨ 10 ^ (Z.of_nat k - 1) ≤ n).
Proof.
  induction fuel as [|fuel IH]; intros n acc Hn Hfuel Hacc; [lia|].
  cbn [str_digits].
  assert (Hmod : 0 ≤ n mod 10 < 10) by (apply Z.mod_pos_bound; lia).
  destruct (digit_char_spec _ Hmod) as [Hd Hv].
  set (acc' := String (digit_char (n mod 10)) acc).
  assert (Hacc' : all_chars is_digit acc' = true).
  { unfold acc'. cbn [all_chars]. by rewrite Hd, Hacc. }
  assert (Hval : digits_value 0 acc'
                 = (n mod 10) * 10 ^ Z.of_nat (String.length acc)
                   + digits_value 0 acc).
  { unfold acc'. cbn [digits_value]. rewrite digits_value_weight, Hv. lia. }
  destruct (Z.ltb_spec n 10) as [Hlt|Hge].
  - split_and!; [done| |].
    + rewrite Hval, Z.mod_small by lia. done.
    + exists 1%nat. split_and!; [lia|done|simpl; lia|by left].
  - assert (Hpow : 10 ^ Z.of_nat (S fuel) = 10 * 10 ^ Z.of_nat fuel)
      by (rewrite Nat2Z.inj_succ, Z.pow_succ_r by lia; done).
    assert (Hfuel' : (0 < fuel)%nat).
    { destruct fuel; [|lia]. simpl in Hn. lia. }
    destruct (IH (n / 10) acc') as (H1 & H3 & k & Hk & Hlen & Hup & Hlow);
      [|done|done|].
    { split; [apply Z.div_pos; lia|].
      apply Z.div_lt_upper_bound; lia. }
    pose proof (Z.div_mod n 10) as Hdm.
    split_and!; [done| |].
    + rewrite H3, Hval. unfold acc'. cbn [String.length].
      rewrite Nat2Z.inj_succ, Z.pow_succ_r by lia. nia.
    + exists (S k). split_and!; [lia| | |right].
      * rewrite Hlen. unfold acc'. cbn [String.length]. lia.
      * rewrite Nat2Z.inj_succ, Z.pow_succ_r by lia. lia.
      * replace (Z.of_nat (S k) - 1) with (Z.of_nat k) by lia.
        destruct Hlow as [->|Hlow]; [simpl; lia|].
        replace (Z.of_nat k) with (Z.succ (Z.of_nat k - 1)) at 1 by lia.
        rewrite Z.pow_succ_r by lia. lia.
Qed.

Lemma log2_fuel n : 0 ≤ n → n < 10 ^ Z.of_nat (S (Z.to_nat (Z.log2 n))).
Proof.
  intros Hn. rewrite Nat2Z.inj_succ, Z2Nat.id by apply Z.log2_nonneg.
  destruct (decide (n = 0)) as [->|]; [done|].
  pose proof (Z.log2_spec n) as [_ Hup]; [lia|].
  eapply Z.lt_le_trans; [exact Hup|].
  apply Z.pow_le_mono_l. pose proof (Z.log2_nonneg n). lia.
Qed.

Lemma count_digits_all s :
  all_chars is_digit s = true → count_digits s = String.length s.
Proof.
  induction s as [|c s IH]; [done|]. cbn [all_chars count_digits String.length].
  rewrite andb_true_iff. intros [-> Hs]. by rewrite IH.
Qed.

(** The decimal notation of [n >= 0]: digits only, at least one, with the
    value [n], and no more than [m >= 1] of them exactly when
    [n < 10 ^ m]. *)
Lemma decimal_spec n :
  0 ≤ n →
  all_chars is_digit (decimal n) = true
  ∧ decimal n ≠ EmptyString
  ∧ digits_value 0 (decimal n) = n
  ∧ ∀ m, (1 ≤ m)%nat →
         ((String.length (decimal n) ≤ m)%nat ↔ n < 10 ^ Z.of_nat m).
Proof.
  intros Hn. unfold decimal.
  destruct (str_digits_spec (S (Z.to_nat (Z.log2 n))) n "")
    as (H1 & H2 & k & Hk & Hlen & Hup & Hlow); [|lia|done|].
  { split; [done|by apply log2_fuel]. }
  cbn [String.length digits_value] in Hlen, H2.
  rewrite Nat.add_0_r in Hlen. change (Z.of_nat 0) with 0 in H2.
  rewrite Z.pow_0_r in H2.
  split_and!; [done| |lia|].
  - intros E. rewrite E in Hlen. simpl in Hlen. lia.
  - intros m Hm1. rewrite Hlen. split.
    + intros Hkm. eapply Z.lt_le_trans; [exact Hup|].
      apply Z.pow_le_mono_r; lia.
    + intros Hm. destruct (Nat.le_gt_cases k m) as [|Hgt]; [done|].
      destruct Hlow as [->|Hlow]; [lia|].
      assert (10 ^ Z.of_nat m ≤ 10 ^ (Z.of_nat k - 1))
        by (apply Z.pow_le_mono_r; lia).
      lia.
Qed.

(** [str] of an int: a literal that [int] reads back, or ValueError for
    more digits than the limit. *)
Lemma py_str_int_spec n :
  if decide (Z.abs n < 10 ^ Z.of_nat int_max_str_digits)
  then ∃ s, py_str_int n = Ok s ∧ is_literal s = true
            ∧ literal_value s = n
            ∧ (int_max_str_digits <? count_digits s)%nat = false
  else py_str_int n = Raise ValueError.
Proof.
  destruct (decimal_spec (Z.abs n)) as (Hdig & Hne & Hval & Hlen); [lia|].
  unfold py_str_int.
  specialize (Hlen int_max_str_digits ltac:(unfold int_max_str_digits; lia)).
  destruct (Nat.ltb_spec int_max_str_digits
              (String.length (decimal (Z.abs n)))) as [Hlong|Hshort].
  - rewrite decide_False; [done|]. intros Hb. apply Hlen in Hb. lia.
  - rewrite decide_True by (by apply Hlen).
    eexists. split; [done|].
    pose proof (count_digits_all _ Hdig) as Hcount.
    destruct (decimal (Z.abs n)) as [|c r] eqn:E; [done|].
    cbn [all_chars] in Hdig. apply andb_true_iff in Hdig as [Hc Hr].
    destruct (digit_not_sign c Hc) as (E1 & E2 & _).
    destruct (Z.ltb_spec n 0) as [Hneg|Hpos].
    + split_and!.
      * cbn [is_literal]. change (Ascii.eqb "-" "+" || Ascii.eqb "-" "-") with true.
        cbn iota. cbn [is_digits all_chars]. by rewrite Hc, Hr.
      * cbn [literal_value]. change (Ascii.eqb "-" "-") with true. cbn iota.
        rewrite Hval. lia.
      * change (count_digits (String "-" (String c r)))
          with (count_digits (String c r)).
        rewrite Hcount. apply Nat.ltb_ge. done.
    + split_and!.
      * cbn [is_literal]. rewrite E1, E2. cbn [orb is_digits all_chars].
        by rewrite Hc, Hr.
      * cbn [literal_value]. rewrite E1, E2, Hval. lia.
      * rewrite Hcount. apply Nat.ltb_ge. done.
Qed.

(** X9. Round trip: for a Vector3 whose components have at most 4300
    decimal digits, [__str__] writes a line of ASCII text that [parse_vec]
    reads back as the same Vector3; when a component has more digits,
    [__str__] raises ValueError. *)
Theorem parse_vec_str (v : Vector3.t) :
  let short n := Z.abs n < 10 ^ Z.of_nat int_max_str_digits in
  (short (Vector3.x v) ∧ short (Vector3.y v) ∧ short (Vector3.z v) →
   ∃ s, Vector3.str v = Ok s ∧ is_ascii s = true ∧ parse_vec s = Ok v)
  ∧ (¬ (short (Vector3.x v) ∧ short (Vector3.y v) ∧ short (Vector3.z v)) →
     Vector3.str v = Raise ValueError).
Proof.
  intros short. unfold short, Vector3.str.
  pose proof (py_str_int_spec (Vector3.x v)) as Hx.
  pose proof (py_str_int_spec (Vector3.y v)) as Hy.
  pose proof (py_str_int_spec (Vector3.z v)) as Hz.
  destruct (decide (Z.abs (Vector3.x v) < _)) as [Bx|Bx];
    [destruct Hx as (sx & -> & Lx & Vx & Cx)|rewrite Hx; split; tauto].
  cbn [mbind result_bind].
  destruct (decide (Z.abs (Vector3.y v) < _)) as [By|By];
    [destruct Hy as (sy & -> & Ly & Vy & Cy)|rewrite Hy; split; tauto].
  cbn [mbind result_bind].
  destruct (decide (Z.abs (Vector3.z v) < _)) as [Bz|Bz];
    [destruct Hz as (sz & -> & Lz & Vz & Cz)|rewrite Hz; split; tauto].
  cbn [mbind result_bind].
  split; [|tauto]. intros _. eexists. split; [done|].
  change ("<x=" +:+ sx +:+ ", y=" +:+ sy +:+ ", z=" +:+ sz +:+ ">")
    with (line_of sx sy sz).
  split; [by apply line_of_ascii|].
  rewrite parse_vec_line_of by done. rewrite Cx, Cy, Cz, Vx, Vy, Vz.
  by destruct v.
Qed.

Lemma parse_vec_str_witness :
  let v := Vector3.mk (-1) 0 2 in
  (Z.abs (Vector3.x v) < 10 ^ Z.of_nat int_max_str_digits
   ∧ Z.abs (Vector3.y v) < 10 ^ Z.of_nat int_max_str_digits
   ∧ Z.abs (Vector3.z v) < 10 ^ Z.of_nat int_max_str_digits)
  ∧ ∃ s, Vector3.str v = Ok s ∧ is_ascii s = true ∧ parse_vec s = Ok v.
Proof.
  intros v.
  assert (H : Z.abs (Vector3.x v) < 10 ^ Z.of_nat int_max_str_digits
              ∧ Z.abs (Vector3.y v) < 10 ^ Z.of_nat int_max_str_digits
              ∧ Z.abs (Vector3.z v) < 10 ^ Z.of_nat int_max_str_digits)
    by (vm_compute; split_and!; reflexivity).
  split; [exact H|]. exact (proj1 (parse_vec_str v) H).
Defined.

(** ** Momentum and energy along a run *)

Lemma tick_sums s h :
  valid s h →
  vsum (map (vel (System.tick s h).2) (System.moons s))
  = vsum (map (vel h) (System.moons s))
  ∧ vsum (map (pos (System.tick s h).2) (System.moons s))
    = Vector3.add (vsum (map (pos h) (System.moons s)))
        (vsum (map (vel h) (System.moons s))).
Proof.
  intros [Hnd Hall]. cbn [System.tick snd].
  assert (Hin : ∀ a, a ∈ System.moons s →
            foldl (fun h' a => alter Moon.move a h') h (System.moons s) !!! a
            = Moon.move (h !!! a)).
  { intros a Ha. apply foldl_move_inside; [done..|].
    by apply (proj1 (Forall_forall _ _) Hall). }
  split.
  - f_equal. apply map_ext_elem. intros a Ha. unfold vel. by rewrite Hin.
  - rewrite <- vsum_map_add. f_equal. apply map_ext_elem. intros a Ha.
    unfold pos, vel. by rewrite Hin.
Qed.

Lemma advance_sums s h :
  valid s h →
  vsum (map (vel (System.advance (s, h)).2) (System.moons s))
  = vsum (map (vel h) (System.moons s))
  ∧ vsum (map (pos (System.advance (s, h)).2) (System.moons s))
    = Vector3.add (vsum (map (pos h) (System.moons s)))
        (vsum (map (vel h) (System.moons s))).
Proof.
  intros Hv. pose proof Hv as [Hnd Hall]. cbn [System.advance].
  assert (Hv' : valid s (System.apply_gravity s h)).
  { split; [done|]. unfold System.apply_gravity.
    by rewrite foldl_gravity_length. }
  destruct (tick_sums s _ Hv') as [-> ->].
  unfold System.apply_gravity. rewrite foldl_gravity_momentum by done.
  split; [done|]. f_equal. f_equal. apply map_ext. intros a.
  apply foldl_gravity_pos.
Qed.

Lemma traj_sums ms h n :
  valid (System.new ms) h →
  vsum (map (vel (traj ms h n).2) ms) = vsum (map (vel h) ms)
  ∧ (vsum (map (vel h) ms) = Vector3.zero →
     vsum (map (pos (traj ms h n).2) ms) = vsum (map (pos h) ms)).
Proof.
  intros Hv. induction n as [|n [IHv IHp]]; [done|].
  rewrite traj_succ.
  pose proof (valid_traj ms h n Hv) as Hvn.
  pose proof (traj_moons ms h n) as Hm.
  destruct (traj ms h n) as [s' h']. simpl in IHv, IHp, Hvn, Hm.
  destruct (advance_sums s' h' Hvn) as [Ev Ep]. rewrite Hm in Ev, Ep.
  split; [by rewrite Ev|].
  intros Hzero. rewrite Ep, IHv, (IHp Hzero), Hzero. apply vadd_zero_r.
Qed.

(** X10. Along any run of a System the sum of the velocities of its
    Moons stays what it was at the start; when that sum is zero, the sum of
    the positions never changes either. *)
Theorem momentum_along_run (ms : list loc) (h : heap) (n : nat) :
  valid (System.new ms) h →
  vsum (map (vel (traj ms h n).2) ms) = vsum (map (vel h) ms)
  ∧ (vsum (map (vel h) ms) = Vector3.zero →
     vsum (map (pos (traj ms h n).2) ms) = vsum (map (pos h) ms)).
Proof. apply traj_sums. Qed.

Lemma momentum_along_run_witness :
  let ms := [0; 1; 2]%nat in
  let h := [Moon.mk (Vector3.mk 3 0 1) (Vector3.mk 1 2 3);
            Moon.mk (Vector3.mk 5 0 0) (Vector3.mk 0 0 0);
            Moon.mk (Vector3.mk (-4) 7 0) (Vector3.mk 0 (-1) 0)] in
  valid (System.new ms) h
  ∧ vsum (map (vel (traj ms h 25).2) ms) = Vector3.mk 1 1 3.
Proof.
  intros ms h.
  assert (Hv : valid (System.new ms) h)
    by (apply (bool_decide_unpack _); vm_compute; exact I).
  split; [exact Hv|].
  rewrite (proj1 (momentum_along_run ms h 25 Hv)). reflexivity.
Defined.

Lemma build_sums vecs :
  vsum (map (vel (map Moon.new vecs)) (seq 0 (length vecs))) = Vector3.zero
  ∧ vsum (map (pos (map Moon.new vecs)) (seq 0 (length vecs))) = vsum vecs.
Proof.
  assert (Hl : map (fun a => map Moon.new vecs !!! a)
                 (seq 0 (length (map Moon.new vecs))) = map Moon.new vecs)
    by apply lookup_total_seq.
  rewrite length_map in Hl.
  assert (Hv : map (vel (map Moon.new vecs)) (seq 0 (length vecs))
               = map Moon.velocity (map Moon.new vecs)).
  { rewrite <- Hl at 2. by rewrite map_map. }
  assert (Hp : map (pos (map Moon.new vecs)) (seq 0 (length vecs))
               = map Moon.position (map Moon.new vecs)).
  { rewrite <- Hl at 2. by rewrite map_map. }
  rewrite Hv, Hp, !map_map. cbn [Moon.new Moon.velocity Moon.position].
  split; [|by rewrite map_id].
  clear. induction vecs as [|v vecs IH]; [done|]. simpl. by rewrite IH.
Qed.

(** X11. In the script the Moons start at rest, so throughout Part 1
    and Part 2 the velocities of the Moons add up to zero and their
    positions add up to the sum of the parsed vectors. *)
Theorem script_centre_of_mass (vecs : list Vector3.t) (n : nat) :
  let ms := seq 0 (length vecs) in
  let hn := (traj ms (map Moon.new vecs) n).2 in
  vsum (map (vel hn) ms) = Vector3.zero
  ∧ vsum (map (pos hn) ms) = vsum vecs.
Proof.
  intros ms hn. subst hn.
  destruct (build_sums vecs) as [Hv0 Hp0]. fold ms in Hv0, Hp0.
  destruct (traj_sums ms (map Moon.new vecs) n (valid_build vecs))
    as [Hv Hp].
  split; [by rewrite Hv|]. by rewrite Hp.
Qed.

Lemma foldr_energy_nonneg (ms : list Moon.t) : 0 ≤ energy_formula ms.
Proof.
  unfold energy_formula. induction ms as [|m ms IH]; simpl; [done|].
  assert (∀ a b c a' b' c', 0 ≤ (Z.abs a + Z.abs b + Z.abs c)
                               * (Z.abs a' + Z.abs b' + Z.abs c')) by nia.
  pose proof (H (Vector3.x (Moon.position m)) (Vector3.y (Moon.position m))
                (Vector3.z (Moon.position m)) (Vector3.x (Moon.velocity m))
                (Vector3.y (Moon.velocity m)) (Vector3.z (Moon.velocity m))).
  lia.
Qed.

(** X12. The energy of a System is never negative, and it is 0 when
    every Moon of the System is at rest, as all are when the script
    starts. *)
Theorem energy_nonneg (s : System.t) (h : heap) :
  0 ≤ System.energy s h
  ∧ ((∀ a, a ∈ System.moons s → vel h a = Vector3.zero) →
     System.energy s h = 0).
Proof.
  rewrite energy_formula_spec. split; [apply foldr_energy_nonneg|].
  unfold energy_formula.
  induction (System.moons s) as [|a l IH]; intros Hrest; [done|].
  cbn [map foldr]. rewrite IH by (intros; apply Hrest; set_solver).
  pose proof (Hrest a) as Ha. unfold vel in Ha. rewrite Ha by set_solver.
  simpl. lia.
Qed.

(** ** Blanks and brackets *)

Lemma remove_cons c a s :
  replace (String c "") "" (String a s)
  = if Ascii.eqb a c then replace (String c "") "" s
    else String a (replace (String c "") "" s).
Proof.
  unfold replace. rewrite replace_from_cons.
  destruct (Ascii.eqb_spec a c) as [->|Hne].
  - by rewrite prefix_same.
  - by rewrite prefix_other by (by apply not_char_ne).
Qed.

Lemma remove_idem c s :
  replace (String c "") "" (replace (String c "") "" s)
  = replace (String c "") "" s.
Proof.
  induction s as [|a s IH]; [done|]. rewrite (remove_cons c a s).
  destruct (Ascii.eqb a c) eqn:E; [done|].
  by rewrite remove_cons, E, IH.
Qed.

Lemma remove_comm c d s :
  replace (String c "") "" (replace (String d "") "" s)
  = replace (String d "") "" (replace (String c "") "" s).
Proof.
  induction s as [|a s IH]; [done|].
  rewrite (remove_cons d a s), (remove_cons c a s).
  destruct (Ascii.eqb a d) eqn:Ed, (Ascii.eqb a c) eqn:Ec;
    rewrite ?remove_cons, ?Ed, ?Ec, ?IH; done.
Qed.

Lemma fields_removed c line :
  c = "<"%char ∨ c = ">"%char ∨ c = " "%char →
  fields (replace (String c "") "" line) = fields line.
Proof.
  unfold fields. intros [E|[E|E]]; subst c.
  - by rewrite remove_idem.
  - by rewrite (remove_comm "<" ">"), remove_idem.
  - by rewrite (remove_comm "<" " "), (remove_comm ">" " "), remove_idem.
Qed.

(** X13. [parse_vec] does not see the characters [<], [>] and space:
    deleting all occurrences of one of them from a line, wherever they
    stand, changes neither the Vector3 returned nor the exception raised. *)
Theorem parse_vec_ignores (line : string) :
  parse_vec (replace "<" "" line) = parse_vec line
  ∧ parse_vec (replace ">" "" line) = parse_vec line
  ∧ parse_vec (replace " " "" line) = parse_vec line.
Proof.
  rewrite !parse_vec_fields, !fields_removed by tauto. done.
Qed.

(** ** The number of passes of the loop *)

Lemma loop_none_bounded ms h fuel : ∀ n st,
  (∀ m, (n < m ≤ n + fuel)%nat →
        ax_period (ax_run ms h 0 m) = None
        ∨ ax_period (ax_run ms h 1 m) = None
        ∨ ax_period (ax_run ms h 2 m) = None) →
  (jupiter st, store st) = traj ms h n →
  represents st (ax_run ms h 0 n) (ax_run ms h 1 n) (ax_run ms h 2 n) →
  part2_loop fuel st = None.
Proof.
  induction fuel as [|fuel IH]; intros n st Hnone T R; [done|]. simpl.
  destruct (check_run ms h n st T R) as (st' & -> & T' & R').
  pose proof R' as (Hp & _). rewrite Hp.
  destruct (all _) eqn:A.
  { apply all_periods in A as (q0 & q1 & q2 & E0 & E1 & E2 & _).
    destruct (Hnone (S n)) as [N|[N|N]]; [lia|..];
      [rewrite E0 in N|rewrite E1 in N|rewrite E2 in N]; done. }
  destruct (System.advance (jupiter st', store st')) as [s1 h1] eqn:Adv.
  apply (IH (S n)).
  - intros m Hm. apply Hnone. lia.
  - cbn [jupiter store]. by rewrite traj_succ, <- T', Adv.
  - destruct R' as (? & ? & ? & ?). by split_and!.
Qed.

Lemma searching_before_first_repeat ms h i p m :
  first_repeat ms h i p → (m ≤ p)%nat → ax_period (ax_run ms h i m) = None.
Proof.
  intros Hfirst Hm. pose proof (ax_run_spec ms h i m) as Hspec.
  destruct (ax_run ms h i m) as [seen|z]; [done|].
  destruct Hspec as (q & _ & Hq & Hfirst').
  pose proof (first_repeat_unique _ _ _ _ _ Hfirst Hfirst'). lia.
Qed.

(** X14. The loop of Part 2 makes exactly one pass more than the
    largest of the three first repeats: with that much fuel it returns the
    three first repeats, with less it has not returned. *)
Theorem part2_loop_passes (ms : list loc) (h : heap) (p0 p1 p2 fuel : nat) :
  first_repeat ms h 0 p0 → first_repeat ms h 1 p1 → first_repeat ms h 2 p2 →
  part2_loop fuel (part2_init ms h)
  = if decide (p0 `max` (p1 `max` p2) < fuel)%nat
    then Some (Ok [Some (Z.of_nat p0); Some (Z.of_nat p1);
                   Some (Z.of_nat p2)])
    else None.
Proof.
  intros F0 F1 F2. case_decide as Hfuel.
  - by apply loop_returns_first_repeats.
  - apply (loop_none_bounded ms h fuel 0);
      [|done|apply part2_init_represents].
    intros m Hm.
    destruct (Nat.max_spec p0 (p1 `max` p2)) as [[_ E]|[_ E]];
      [destruct (Nat.max_spec p1 p2) as [[_ E']|[_ E']]|].
    + right; right. apply (searching_before_first_repeat _ _ _ p2); [done|lia].
    + right; left. apply (searching_before_first_repeat _ _ _ p1); [done|lia].
    + left. apply (searching_before_first_repeat _ _ _ p0); [done|lia].
Qed.

Lemma part2_loop_passes_witness :
  let ms := [0%nat] in
  let h := [Moon.new (Vector3.mk 1 0 0)] in
  (first_repeat ms h 0 1 ∧ first_repeat ms h 1 1 ∧ first_repeat ms h 2 1)
  ∧ part2_loop 1 (part2_init ms h) = None
  ∧ part2_loop 2 (part2_init ms h) = Some (Ok [Some 1; Some 1; Some 1]).
Proof.
  intros ms h.
  assert (F : ∀ i, (i < 3)%nat → first_repeat ms h i 1).
  { intros i Hi. split.
    - exists 0%nat. split; [lia|].
      destruct i as [|[|[|i]]]; [reflexivity..|lia].
    - intros b Hb (a & Ha & _). lia. }
  assert (F0 := F 0%nat ltac:(lia)). assert (F1 := F 1%nat ltac:(lia)).
  assert (F2 := F 2%nat ltac:(lia)).
  split; [by split_and!|]. split.
  - exact (part2_loop_passes ms h 1 1 1 1 F0 F1 F2).
  - exact (part2_loop_passes ms h 1 1 1 2 F0 F1 F2).
Defined.

(** ** Vectors, small Systems, and the bookkeeping of the loop *)

(** X15. Vector arithmetic: adding and then subtracting the same vector
    gives the vector back, the sign of a difference is the opposite of the
    sign of the reversed difference, and [sign] of a sign changes nothing. *)
Theorem vector3_algebra (a b : Vector3.t) :
  Vector3.sub (Vector3.add a b) b = a
  ∧ Vector3.add (Vector3.sub a b) b = a
  ∧ Vector3.sign (Vector3.sub a b)
    = Vector3.sub Vector3.zero (Vector3.sign (Vector3.sub b a))
  ∧ Vector3.sign (Vector3.sign a) = Vector3.sign a.
Proof.
  assert (Hopp : ∀ c d, Vector3.sign1 (c - d) = 0 - Vector3.sign1 (d - c)).
  { intros c d. pose proof (sign1_opp (d - c)) as Ho.
    replace (- (d - c)) with (c - d) in Ho by lia. lia. }
  assert (Hidem : ∀ c, Vector3.sign1 (Vector3.sign1 c) = Vector3.sign1 c).
  { intros c. by destruct (sign1_cases c) as [[? ->]|[[? ->]|[? ->]]]. }
  split_and!.
  - vec.
  - vec.
  - rewrite !sign_components. apply vec_eq; simpl; apply Hopp.
  - rewrite !sign_components. apply vec_eq; simpl; apply Hidem.
Qed.

Lemma combinations_shape {A} (l : list A) : ∀ r c,
  c ∈ combinations l r → length c = r ∧ c `sublist_of` l.
Proof.
  induction l as [|a l IH]; intros [|r] c; cbn [combinations].
  - intros ->%list_elem_of_singleton. split; [done|apply sublist_nil_l].
  - by intros ?%elem_of_nil.
  - intros ->%list_elem_of_singleton. split; [done|apply sublist_nil_l].
  - rewrite elem_of_app, list_elem_of_fmap.
    intros [(c' & -> & Hc')|Hc].
    + destruct (IH r c' Hc') as [Hlen Hsub].
      split; [by rewrite <- Hlen|by apply sublist_skip].
    + destruct (IH (S r) c Hc) as [Hlen Hsub].
      split; [done|by apply sublist_cons].
Qed.

(** X16. Every tuple [combinations] yields has exactly [r] elements,
    taken from the list in list order; so the unpacking [for m1, m2 in
    combinations(self.moons, 2)] never fails, and with fewer than two
    Moons the loop of [apply_gravity] has nothing to do. *)
Theorem combinations_tuples (s : System.t) (h : heap) :
  (∀ (l : list loc) r c,
     c ∈ combinations l r → length c = r ∧ c `sublist_of` l)
  ∧ (∀ c, c ∈ combinations (System.moons s) 2 →
          ∃ m1 m2, c = [m1; m2] ∧ m1 ∈ System.moons s ∧ m2 ∈ System.moons s)
  ∧ ((length (System.moons s) ≤ 1)%nat → System.apply_gravity s h = h).
Proof.
  split_and!.
  - apply combinations_shape.
  - intros c Hc. destruct (combinations_shape _ _ _ Hc) as [Hlen Hsub].
    destruct c as [|m1 [|m2 [|]]]; try done.
    exists m1, m2. split; [done|].
    split; apply (elem_of_sublist [m1; m2] _ _); (done || set_solver).
  - unfold System.apply_gravity.
    destruct (System.moons s) as [|a [|b l]]; simpl; [done|done|lia].
Qed.

(** X17. Empty input: without Moons Part 1 reports the energy 0, every
    axis has the empty tuple as its state at every step, and Part 2 finds
    the period 1 on its second pass. *)
Theorem script_empty_input (fuel : nat) :
  main [] (S (S fuel)) = Some (Ok (0, 1))
  ∧ main [] 1 = None
  ∧ part2_loop (S (S fuel)) (part2_start [])
    = Some (Ok [Some 1; Some 1; Some 1]).
Proof. by vm_compute. Qed.

Lemma ax_run_size ms h i n seen :
  ax_run ms h i n = Searching seen → size seen = n.
Proof.
  revert seen. induction n as [|n IH]; intros seen.
  { change (ax_run ms h i 0) with (Searching ∅). intros [= <-].
    apply size_empty. }
  rewrite ax_run_succ. destruct (ax_run ms h i n) as [seen'|p]; [|done].
  simpl. case_bool_decide as Hin; [done|]. intros [= <-].
  rewrite size_union by set_solver. rewrite size_singleton.
  by rewrite (IH seen' eq_refl).
Qed.

(** X18. The bookkeeping of the loop of Part 2: at the start of the
    pass at step n, an axis without a period has its entry in [history],
    a set of exactly n states, one for every step so far, and an axis
    with a period has no entry left. *)
Theorem history_bookkeeping (ms : list loc) (h : heap) (st : Part2) :
  loop_reaches (part2_init ms h) st →
  ∀ i axis, (i, axis) ∈ enumerate "xyz" →
    match period st !! i with
    | Some None =>
        ∃ seen, history st !! axis = Some seen
                ∧ Z.of_nat (size seen) = System.step (jupiter st)
    | Some (Some p) => history st !! axis = None
    | None => False
    end.
Proof.
  intros (n & T & R)%loop_reaches_run.
  assert (Hstep : System.step (jupiter st) = Z.of_nat n).
  { rewrite <- (traj_step ms h n), <- T. done. }
  destruct R as (Hp & Hx & Hy & Hz). rewrite Hp, Hstep.
  intros i axis. rewrite enumerate_xyz, !elem_of_cons, elem_of_nil.
  intros [[= -> ->]|[[= -> ->]|[[= -> ->]|[]]]]; cbn [lookup list_lookup].
  - rewrite Hx. destruct (ax_run ms h 0 n) as [seen|p] eqn:E; [|done].
    exists seen. split; [done|]. by rewrite (ax_run_size _ _ _ _ _ E).
  - rewrite Hy. destruct (ax_run ms h 1 n) as [seen|p] eqn:E; [|done].
    exists seen. split; [done|]. by rewrite (ax_run_size _ _ _ _ _ E).
  - rewrite Hz. destruct (ax_run ms h 2 n) as [seen|p] eqn:E; [|done].
    exists seen. split; [done|]. by rewrite (ax_run_size _ _ _ _ _ E).
Qed.

Lemma history_bookkeeping_witness :
  let ms := [0; 1]%nat in
  let h := [Moon.new (Vector3.mk 3 0 0); Moon.new (Vector3.mk 5 0 0)] in
  let st0 := part2_init ms h in
  ∃ st',
    check st0 = Ok st'
    ∧ let st1 :=
        mkPart2 (System.advance (jupiter st', store st')).1
                (System.advance (jupiter st', store st')).2
                (history st') (period st') in
      loop_reaches st0 st1
      ∧ System.step (jupiter st1) = 1
      ∧ period st1 !! 0%nat = Some None
      ∧ ∃ seen, history st1 !! "x" = Some seen
                ∧ Z.of_nat (size seen) = System.step (jupiter st1).
Proof.
  intros ms h st0. eexists. split; [vm_compute; reflexivity|].
  intros st1.
  assert (Hr : loop_reaches st0 st1).
  { apply (reaches_next st0 st0);
      [apply reaches_start|vm_compute; reflexivity|vm_compute; reflexivity]. }
  assert (Hin : (0%nat, "x") ∈ enumerate "xyz")
    by (rewrite enumerate_xyz; apply list_elem_of_here).
  split_and!; [exact Hr|vm_compute; reflexivity|reflexivity|].
  exact (history_bookkeeping ms h st1 Hr 0%nat "x" Hin).
Defined.
